(** * ORGANIC [mol_methods.py]: codec, vocabulary, reward shaping, reporting

    A shallow embedding of the functions of [model/mol_methods.py] and the
    properties of its specification.

    Conventions of the embedding:
    - a Python [str] is a [list ascii]; a one-character string such as
      [pad_char] is an [ascii] (nothing below depends on the alphabet beyond
      its decidable equality);
    - names are those of the source, but for the parameter [fun] of
      [apply_to_valid], a keyword here, which is [func];
    - a Python [int] is a [Z];
    - a Python [dict] is a stdpp [gmap]; the subscript [d[k]] on a missing key
      raises [KeyError], which is [None] in the codec (its only failure) and
      [Raise KeyError] in the reporting code;
    - the numbers handled by [remap] are exact rationals ([Q]); those handled
      by [constant_bump], which needs [exp], are real numbers ([R]). *)

From Stdlib Require Import ZArith QArith Reals Lra Lia List Ascii String.
From stdpp Require Import base gmap list strings pretty.

Local Open Scope Z_scope.

(** ** Strings *)

Abbreviation pystr := (list ascii).

(** A string literal of the source. *)
Definition str (s : string) : pystr := list_ascii_of_string s.

(** [s.rstrip(c)] for a one-character [c]: every trailing [c] is removed. *)
Fixpoint rstrip (s : pystr) (c : ascii) : pystr :=
  match s with
  | [] => []
  | x :: t =>
      match rstrip t c with
      | [] => if decide (x = c) then [] else [x]
      | t' => x :: t'
      end
  end.

(** ** Encoding/decoding utilities *)

Module Codec.

(** Default values of the [pad_char] and [start_char] keyword arguments. *)
Definition default_pad_char : ascii := "_"%char.
Definition default_start_char : ascii := "^"%char.

(** The loop state of [build_vocab]: the counter [i] and both dictionaries. *)
Definition vocab_state : Type := Z * gmap ascii Z * gmap Z ascii.

(** Body of the inner loop: [if c not in char_dict: ...]. *)
Definition scan_char (st : vocab_state) (c : ascii) : vocab_state :=
  let '(i, char_dict, ord_dict) := st in
  match char_dict !! c with
  | Some _ => st
  | None => (i + 1, <[c := i]> char_dict, <[i := c]> ord_dict)
  end.

(** The two nested [for] loops. *)
Definition scan (st : vocab_state) (smiles : list pystr) : vocab_state :=
  foldl (foldl scan_char) st smiles.

Definition build_vocab (smiles : list pystr) (pad_char start_char : ascii)
  : gmap ascii Z * gmap Z ascii :=
  let '(i, char_dict, ord_dict) :=
    scan (1, {[start_char := 0]}, {[0 := start_char]}) smiles in
  (<[pad_char := i]> char_dict, <[i := pad_char]> ord_dict).

(** [pad_char * k] is the empty string for [k <= 0], as [Z.to_nat] gives. *)
Definition pad (smile : pystr) (n : Z) (pad_char : ascii) : pystr :=
  if n <? Z.of_nat (length smile) then smile
  else smile ++ replicate (Z.to_nat (n - Z.of_nat (length smile))) pad_char.

Definition unpad (smile : pystr) (pad_char : ascii) : pystr :=
  rstrip smile pad_char.

(** [encode] calls [pad] without a [pad_char]: the default is used. *)
Definition encode (smile : pystr) (max_len : Z) (char_dict : gmap ascii Z)
  : option (list Z) :=
  mapM (λ c, char_dict !! c) (pad smile max_len default_pad_char).

(** [decode] calls [unpad] without a [pad_char]: the default is used. The
    values of [ord_dict] are single characters, so [''.join] of them is the
    list itself. *)
Definition decode (ords : list Z) (ord_dict : gmap Z ascii) : option pystr :=
  chars ← mapM (λ o, ord_dict !! o) ords;
  Some (unpad chars default_pad_char).

End Codec.

(** ** Exceptions *)

Inductive exn : Type :=
  | KeyError
  | ZeroDivisionError
  | TypeError
  | ValueError
  | ExternalError (msg : string).  (* raised inside the RDKit binding *)

(** The outcome of a call: a value, or an exception on its way up. *)
Inductive outcome (A : Type) : Type :=
  | Val (a : A)
  | Raise (e : exn).
Arguments Val {A} a.
Arguments Raise {A} e.

Global Instance outcome_ret : MRet outcome := λ A a, Val a.
Global Instance outcome_bind : MBind outcome := λ A B k m,
  match m with
  | Val a => k a
  | Raise e => Raise e
  end.

(** ** Mathematical utilities *)

Module Shaping.

Local Open Scope Q_scope.

(** [remap] on exact rationals. The division of the last branch is only
    reached when [x_max - x_min] is not zero. *)
Definition remap (x x_min x_max : Q) : Q :=
  if negb (Qeq_bool x_max 0) && negb (Qeq_bool x_min 0) then 0
  else if Qeq_bool (x_max - x_min) 0 then x
  else (x - x_min) / (x_max - x_min).

(** [pct]: the guarded division of the module. *)
Definition pct {A B : Type} (a : list A) (b : list B) : Q :=
  if (Z.of_nat (length b) =? 0)%Z then 0
  else inject_Z (Z.of_nat (length a)) / inject_Z (Z.of_nat (length b)).

Local Open Scope R_scope.

(** Division of Python floats: a zero divisor raises. *)
Definition truediv (a b : R) : outcome R :=
  if Req_dec_T b 0 then Raise ZeroDivisionError else Val (a / b).

(** [-(x - x_low)**2 / decay]: the power binds tighter than the sign, the
    sign tighter than the division. *)
Definition constant_bump_func (x x_low x_high decay : R) : outcome R :=
  if Rle_dec x x_low then
    q ← truediv (- (x - x_low) ^ 2) decay; mret (exp q)
  else if Rge_dec x x_high then
    q ← truediv (- (x - x_high) ^ 2) decay; mret (exp q)
  else mret 1.

(** The argument of the vectorised functions: [hasattr(x, "__len__")]
    tells a sequence from a scalar. *)
Inductive arg : Type :=
  | Scalar (x : R)
  | Sequence (xs : list R).

Definition constant_bump (x : arg) (x_low x_high decay : R) : outcome arg :=
  match x with
  | Sequence xs =>
      ys ← mapM (λ xi, constant_bump_func xi x_low x_high decay) xs;
      mret (Sequence ys)
  | Scalar x =>
      y ← constant_bump_func x x_low x_high decay; mret (Scalar y)
  end.


(** [constant_range_func]; its results [0] and [1] are numbers. *)
Definition constant_range_func (x x_low x_high : R) : R :=
  if Rle_dec x x_low then 0
  else if Rge_dec x x_high then 0
  else 1.

Definition constant_range (x : arg) (x_low x_high : R) : arg :=
  match x with
  | Sequence xs => Sequence (map (λ xi, constant_range_func xi x_low x_high) xs)
  | Scalar x => Scalar (constant_range_func x x_low x_high)
  end.

Definition smooth_plateau_func (x x_point decay : R) (increase : bool)
  : outcome R :=
  if increase then
    if Rle_dec x x_point then
      q ← truediv (- (x - x_point) ^ 2) decay; mret (exp q)
    else mret 1
  else
    if Rge_dec x x_point then
      q ← truediv (- (x - x_point) ^ 2) decay; mret (exp q)
    else mret 1.

Definition smooth_plateau (x : arg) (x_point decay : R) (increase : bool)
  : outcome arg :=
  match x with
  | Sequence xs =>
      ys ← mapM (λ xi, smooth_plateau_func xi x_point decay increase) xs;
      mret (Sequence ys)
  | Scalar x =>
      y ← smooth_plateau_func x x_point decay increase; mret (Scalar y)
  end.

End Shaping.

(** ** Validity oracle *)

Module Oracle.
Section Oracle.

(** The external structure parser (RDKit): [Chem.MolFromSmiles] gives a
    molecule, or [None] for a string it cannot parse, or raises inside the
    binding; [mol.GetNumAtoms()] counts the atoms of a molecule. *)
Context {Mol : Type}.
Variable MolFromSmiles : pystr → outcome (option Mol).
Variable GetNumAtoms : Mol → Z.

(** [smile != '' and mol is not None and mol.GetNumAtoms() > 1], with the
    short circuit of [and]. *)
Definition valid (smile : pystr) (mol : option Mol) : bool :=
  negb (bool_decide (smile = [])) &&
  match mol with
  | None => false
  | Some m => 1 <? GetNumAtoms m
  end.

Definition verify_sequence (smile : pystr) : outcome bool :=
  mol ← MolFromSmiles smile;
  mret (valid smile mol).

Definition verified_and_below (smile : pystr) (max_len : Z) : outcome bool :=
  if Z.of_nat (length smile) <? max_len then verify_sequence smile
  else mret false.

(** [fun] is a total function of the molecule and the keyword arguments;
    the parser is called first, on every [smile], the empty one too. *)
Definition apply_to_valid {K : Type} (smile : pystr) (func : Mol → K → Q)
    (kwargs : K) : outcome Q :=
  mol ← MolFromSmiles smile;
  mret (match mol with
        | Some m => if valid smile mol then func m kwargs else 0%Q
        | None => 0%Q
        end).

(** [filter_smiles]: the comprehension
    [[smile for smile in smiles if verify_sequence(smile)]]. *)
Fixpoint filter_smiles (smiles : list pystr) : outcome (list pystr) :=
  match smiles with
  | [] => mret []
  | smile :: rest =>
      ok ← verify_sequence smile;
      kept ← filter_smiles rest;
      mret (if ok : bool then smile :: kept else kept)
  end.

End Oracle.
End Oracle.

(** ** Results aggregator and reporter *)

(** A value stored in a results record: a Python [int], a numpy float (as
    [np.mean] returns; [None] is [nan]), or a [str]. *)
Inductive value : Type :=
  | VInt (n : Z)
  | VFloat (x : option Q)
  | VStr (s : pystr).

(** What a call returns to its caller: [None], or (a reference to) a record. *)
Inductive pyobj : Type :=
  | PyNone
  | PyDict (d : gmap string value).

(** A line written by [print]; the fields are the arguments of [format]:
    [Count] is ['{:15s} : {:6d}'] and [CountPct] is
    ['{:15s} : {:6d} ({:2.2f}%)']. *)
Inductive line : Type :=
  | Text (s : string)
  | Sample (s : pystr)
  | Count (label : string) (n : Z)
  | CountPct (label : string) (n : Z) (percent : Q).

(** The world that the reporting code reads and writes: the results record it
    was handed (a dictionary mutated in place), the standard output, and the
    file system below the working directory. *)
Record world : Type := World {
  results : gmap string value;
  stdout : list line;
  dirs : gset pystr;
  files : gmap pystr pystr;
}.

Definition io (A : Type) : Type := world → outcome A * world.

Global Instance io_ret : MRet io := λ A a w, (Val a, w).
Global Instance io_bind : MBind io := λ A B k m w,
  match m w with
  | (Val a, w') => k a w'
  | (Raise e, w') => (Raise e, w')
  end.

Module Report.

Definition raise {A : Type} (e : exn) : io A := λ w, (Raise e, w).

Definition lift {A : Type} (o : outcome A) : io A := λ w, (o, w).

(** [results[key]] *)
Definition getitem (key : string) : io value := λ w,
  match results w !! key with
  | Some v => (Val v, w)
  | None => (Raise KeyError, w)
  end.

(** [results[key] = v] *)
Definition setitem (key : string) (v : value) : io unit := λ w,
  (Val tt, World (<[key := v]> (results w)) (stdout w) (dirs w) (files w)).

(** [key in results.keys()] *)
Definition contains (key : string) : io bool := λ w,
  (Val (bool_decide (is_Some (results w !! key))), w).

Definition print (l : line) : io unit := λ w,
  (Val tt, World (results w) (stdout w ++ [l]) (dirs w) (files w)).

(** ['\n'.join(smiles)] *)
Fixpoint join_lines (smiles : list pystr) : pystr :=
  match smiles with
  | [] => []
  | [s] => s
  | s :: rest => s ++ str (String "010" EmptyString) ++ join_lines rest
  end.

(** [os.path.join('epoch_data', name)]: an absolute [name] stands alone. *)
Definition path_join (dir name : pystr) : pystr :=
  match name with
  | "/"%char :: _ => name
  | _ => dir ++ str "/" ++ name
  end.

(** [save_smi]; the operating system's own failures are not modelled. *)
Definition save_smi (name : pystr) (smiles : list pystr) : io pyobj := λ w,
  let epoch_data := str "epoch_data" in
  let present :=
    bool_decide (epoch_data ∈ dirs w) ||
    bool_decide (is_Some (files w !! epoch_data)) in
  let dirs' := if present then dirs w else {[epoch_data]} ∪ dirs w in
  let smi_file := path_join epoch_data (name ++ str ".smi") in
  (Val PyNone,
   World (results w) (stdout w) dirs' (<[smi_file := join_lines smiles]> (files w))).

(** ['{:6d}'.format(v)] accepts an [int] only. *)
Definition format_d (v : value) : outcome Z :=
  match v with
  | VInt n => Val n
  | _ => Raise ValueError
  end.

(** [percent = results[key] / float(results['n_samples']) * 100] followed
    by the [print] of the count and the percentage. The total has passed
    ['{:6d}'] on the first line of the summary, so it is an [int] here. A
    numpy float in the numerator divides by zero silently and is then
    refused by ['{:6d}']; a [str] cannot be divided. *)
Definition count_line (label key : string) : io unit :=
  v ← getitem key;
  n ← getitem "n_samples";
  total ← lift (format_d n);
  match v with
  | VInt k =>
      if total =? 0 then raise ZeroDivisionError
      else print (CountPct label k (inject_Z k / inject_Z total * 100)%Q)
  | VFloat _ => raise ValueError
  | VStr _ => raise TypeError
  end.

(** [for s in samples[0:10]: print('' + s)]. The messages start with a
    newline in the source: an empty line is printed before them. *)
Definition print_examples (header none : string) (samples : list pystr)
  : io unit :=
  _ ← print (Text "");
  if 10 <? Z.of_nat (length samples) then
    _ ← print (Text header);
    foldl (λ acc s, _ ← acc; print (Sample s)) (mret tt) (take 10 samples)
  else print (Text none).

Definition print_results (verified_samples unverified_samples : list pystr)
  : io pyobj :=
  _ ← print (Text "~~~ Summary Results ~~~");
  n ← getitem "n_samples";
  total ← lift (format_d n);
  _ ← print (Count "Total samples" total);
  _ ← count_line "Unique" "uniq_samples";
  _ ← count_line "Unverified" "bad_samples";
  _ ← count_line "Verified" "good_samples";
  _ ← print_examples "Example of good samples:" "no good samples found :("
        verified_samples;
  _ ← print_examples "Example of bad samples:" "no bad samples found :("
        unverified_samples;
  _ ← print (Text "~~~~~~~~~~~~~~~~~~~~~~~");
  mret PyNone.

End Report.

Module Aggregator.

(** [decode(s, ord_dict)] with its [KeyError] on the way up. *)
Definition decode_sample (s : list Z) (ord_dict : gmap Z ascii) : outcome pystr :=
match Codec.decode s ord_dict with
| Some smile => Val smile
| None => Raise KeyError
end.

Section Aggregator.

Context {Mol : Type}.
Variable MolFromSmiles : pystr → outcome (option Mol).
Variable GetNumAtoms : Mol → Z.
(** [str] of a numpy float, for [format]. *)
Variable float_repr : option Q → pystr.

(** ['{}'.format(v)] *)
Definition format_value (v : value) : pystr :=
  match v with
  | VInt n => str (pretty n)
  | VFloat x => float_repr x
  | VStr s => s
  end.

(** [np.mean] of a list of lengths: [nan] on the empty list. *)
Definition mean (lens : list Z) : option Q :=
  match lens with
  | [] => None
  | _ => Some (inject_Z (foldr Z.add 0%Z lens) / inject_Z (Z.of_nat (length lens)))%Q
  end.

(** The loop that splits the samples, appending to either list. *)
Fixpoint split_samples (samples verified unverified : list pystr)
  : outcome (list pystr * list pystr) :=
  match samples with
  | [] => mret (verified, unverified)
  | sample :: rest =>
      ok ← Oracle.verify_sequence MolFromSmiles GetNumAtoms sample;
      if ok : bool then split_samples rest (verified ++ [sample]) unverified
      else split_samples rest verified (unverified ++ [sample])
  end.

(** [compute_results]. The record [results] is the one of the world; the
    function ends with a bare [return]. *)
Definition compute_results (model_samples : list (list Z))
    (train_data : list pystr) (ord_dict : gmap Z ascii) (verbose : bool)
  : io pyobj :=
  samples ← Report.lift (mapM (λ s, decode_sample s ord_dict) model_samples);
  _ ← Report.setitem "mean_length"
        (VFloat (mean (map (λ sample, Z.of_nat (length sample)) samples)));
  _ ← Report.setitem "n_samples" (VInt (Z.of_nat (length samples)));
  _ ← Report.setitem "uniq_samples"
        (VInt (Z.of_nat (size (list_to_set (C := gset pystr) samples))));
  '(verified_samples, unverified_samples) ←
    Report.lift (split_samples samples [] []);
  _ ← Report.setitem "good_samples" (VInt (Z.of_nat (length verified_samples)));
  _ ← Report.setitem "bad_samples" (VInt (Z.of_nat (length unverified_samples)));
  has_batch ← Report.contains "Batch";
  _ ← (if has_batch : bool then
         exp_name ← Report.getitem "exp_name";
         batch ← Report.getitem "Batch";
         let smi_name := format_value exp_name ++ str "_" ++ format_value batch in
         _ ← Report.save_smi smi_name samples;
         Report.setitem "model_samples" (VStr smi_name)
       else mret tt);
  _ ← (if verbose then
         _ ← Report.print_results verified_samples unverified_samples;
         mret tt
       else mret tt);
  mret PyNone.

End Aggregator.
End Aggregator.

(** ** Data I/O *)

Module DataIO.

(** [s.split(sep)] for a one-character [sep]: the segments between the
    separators, of which there is always at least one. *)
Fixpoint split (s : pystr) (sep : ascii) : list pystr :=
  match s with
  | [] => [[]]
  | x :: t =>
      if decide (x = sep) then [] :: split t sep
      else match split t sep with
           | [] => [[x]]
           | seg :: segs => (x :: seg) :: segs
           end
  end.

(** [filename.split(".")[-1]] *)
Definition extension (filename : pystr) : pystr :=
  default [] (last (split filename ".")).

Section Loader.

(** The two readers open the file; what they read, and how they fail, is
    the file system's and the [csv] library's. *)
Variable read_smiles_csv : pystr → outcome (list pystr).
Variable read_smi : pystr → outcome (list pystr).

Definition load_train_data (filename : pystr) : outcome (list pystr) :=
  let ext := extension filename in
  if decide (ext = str "csv") then read_smiles_csv filename
  else if decide (ext = str "smi") then read_smi filename
  else Raise ValueError.

End Loader.
End DataIO.

(** The empty world around a record. *)
Definition world_of (r : gmap string value) : world := World r [] ∅ ∅.

(** A parser for the examples: a string is a molecule with one atom per
    character, unless it holds a ["Z"]. *)
Definition toy_parser (s : pystr) : outcome (option pystr) :=
  Val (if bool_decide ("Z"%char ∈ s) then None else Some s).
Definition toy_atoms (m : pystr) : Z := Z.of_nat (length m).
Definition toy_repr (x : option Q) : pystr := str "nan".

(** ** Predicates of the specification and data of the examples *)

(** What the scan of the corpus maintains, [seen] being the characters
    read so far and [start] the start character. *)
Record scan_inv (start : ascii) (seen : list ascii) (st : Codec.vocab_state) : Prop := {
  inv_fwd : ∀ c k, st.1.2 !! c = Some k → st.2 !! k = Some c;
  inv_bwd : ∀ k c, st.2 !! k = Some c → st.1.2 !! c = Some k;
  inv_codes : ∀ k, is_Some (st.2 !! k) ↔ 0 ≤ k < st.1.1;
  inv_start : st.1.2 !! start = Some 0;
  inv_keys : ∀ c, is_Some (st.1.2 !! c) ↔ c = start ∨ c ∈ seen;
  inv_size : Z.of_nat (size st.1.2) = st.1.1;
}.

(** A vocabulary as the specification describes it: the two dictionaries are
    inverse to each other, the start character has code [0], and the pad
    character has the highest code [n], the codes being exactly [0..n]. *)
Definition is_vocabulary (start_char pad_char : ascii)
    (char_dict : gmap ascii Z) (ord_dict : gmap Z ascii) : Prop :=
  (∀ c k, char_dict !! c = Some k ↔ ord_dict !! k = Some c) ∧
  char_dict !! start_char = Some 0 ∧
  ∃ n, char_dict !! pad_char = Some n ∧
       (∀ k, is_Some (ord_dict !! k) ↔ 0 ≤ k ≤ n) ∧
       (∀ c k, char_dict !! c = Some k → k ≤ n).

(** Continuity at [a] of a function that may raise: it returns at [a], and
    near [a] it returns values near the one at [a]. *)
Definition continuous_at (f : R → outcome R) (a : R) : Prop :=
  ∃ fa, f a = Val fa ∧
    ∀ eps, (0 < eps)%R → ∃ delta, (0 < delta)%R ∧
      ∀ x, (Rabs (x - a) < delta)%R →
           ∃ y, f x = Val y ∧ (Rabs (y - fa) < eps)%R.

(** What [print_examples] writes. *)
Definition examples_lines (header none : string) (samples : list pystr)
  : list line :=
  Text "" ::
  (if 10 <? Z.of_nat (length samples)
   then Text header :: map Sample (take 10 samples)
   else [Text none]).


(** Closed facts about concrete inputs are settled by evaluation of their
    decision procedure. *)
Ltac by_evaluation := apply (bool_decide_unpack _); vm_compute; exact I.

(** The vocabulary of the corpus [["AB"; "BA"]] with the default characters:
    [{'^': 0, 'A': 1, 'B': 2, '_': 3}]. *)
Definition vocab_AB : gmap ascii Z * gmap Z ascii :=
  Codec.build_vocab [str "AB"; str "BA"] Codec.default_pad_char
    Codec.default_start_char.

(** The batch of the end-to-end example: ["AB"], ["AB"] and ["ZZ"] in the
    codes of the corpus [["AB"; "ZZ"]]; the toy parser refuses ["ZZ"]. *)
Definition vocab_ABZ : gmap ascii Z * gmap Z ascii :=
  Codec.build_vocab [str "AB"; str "ZZ"] Codec.default_pad_char
    Codec.default_start_char.
Definition batch_ABZ : list (list Z) := [[1; 2; 4; 4]; [1; 2; 4; 4]; [3; 3; 4; 4]].

(** A parser for the examples that fails on the string ["?"] by an exception
    of the binding and is [toy_parser] elsewhere. *)
Definition raising_parser (s : pystr) : outcome (option pystr) :=
  if bool_decide (s = str "?") then Raise (ExternalError "parser failure")
  else toy_parser s.

(** The record that [compute_results] leaves for an empty batch. *)
Definition empty_batch_record : gmap string value :=
  <["bad_samples" := VInt 0]> (<["good_samples" := VInt 0]>
  (<["uniq_samples" := VInt 0]> (<["n_samples" := VInt 0]>
  (<["mean_length" := VFloat None]> ∅)))).

(** A record that carries an experiment name and a batch number. *)
Definition record_batch_7 : gmap string value :=
  <["Batch" := VInt 7]> (<["exp_name" := VStr (str "run")]> ∅).

(** [w'] differs from [w] by lines added to the standard output only. *)
Definition same_but_stdout (w w' : world) : Prop :=
  results w' = results w ∧ dirs w' = dirs w ∧ files w' = files w ∧
  stdout w `prefix_of` stdout w'.

(** A computation that only prints, whatever its outcome. *)
Definition only_prints {A : Type} (m : io A) : Prop :=
  ∀ w, same_but_stdout w (m w).2.

(** * Properties *)

(** ** The codec: [pad], [unpad], [encode], [decode] *)

Section CodecFacts.

Import Codec.

Implicit Types (s t : pystr) (c : ascii) (n : Z).

Lemma rstrip_replicate k c : rstrip (replicate k c) c = [].
Proof.
  induction k as [|k IH]; simpl; [done|].
  rewrite IH. by rewrite decide_True.
Qed.

Lemma rstrip_app_nil s t c : rstrip t c = [] → rstrip (s ++ t) c = rstrip s c.
Proof.
  intros Ht. induction s as [|x s IH]; simpl; [done|]. by rewrite IH.
Qed.



Lemma pad_length s n c :
  Z.of_nat (length (pad s n c)) = Z.max (Z.of_nat (length s)) n.
Proof.
  unfold pad. destruct (Z.ltb_spec n (Z.of_nat (length s))); [lia|].
  rewrite length_app, length_replicate. lia.
Qed.

Lemma pad_elem_of s n c x : x ∈ pad s n c → x ∈ s ∨ x = c.
Proof.
  unfold pad. case_match; [by left|].
  intros [?|[-> _]%elem_of_replicate]%elem_of_app; [by left|by right].
Qed.

End CodecFacts.

(** ** The vocabulary builder *)

Section VocabFacts.

Import Codec.

Lemma scan_flat st smiles : scan st smiles = foldl scan_char st (concat smiles).
Proof.
  unfold scan. revert st.
  induction smiles as [|s smiles IH]; intros st; simpl; [done|].
  by rewrite foldl_app, IH.
Qed.

Lemma scan_inv_init start :
  scan_inv start [] (1, {[start := 0]}, {[0 := start]}).
Proof.
  split; simpl.
  - intros c k [-> ->]%lookup_singleton_Some. apply lookup_singleton_eq.
  - intros k c [<- <-]%lookup_singleton_Some. apply lookup_singleton_eq.
  - intros k. rewrite lookup_singleton_is_Some. lia.
  - apply lookup_singleton_eq.
  - intros c. rewrite lookup_singleton_is_Some, elem_of_nil.
    intuition congruence.
  - by rewrite map_size_singleton.
Qed.

Lemma scan_inv_step start seen st c :
  scan_inv start seen st → scan_inv start (seen ++ [c]) (scan_char st c).
Proof.
  destruct st as [[i cd] od]. intros [Hf Hb Hc Hs Hk Hz]; simpl in *.
  unfold scan_char. destruct (cd !! c) as [k|] eqn:Hcd.
  - split; simpl; try done.
    intros c'. rewrite Hk, elem_of_app, list_elem_of_singleton.
    split; [tauto|]. intros [?|[?| ->]]; [tauto..|].
    apply Hk. by rewrite Hcd.
  - assert (od !! i = None) as Hod.
    { apply eq_None_not_Some. rewrite Hc. lia. }
    split; simpl.
    + intros c' k [[<- <-]|[Hne Hl]]%lookup_insert_Some.
      * apply lookup_insert_eq.
      * rewrite lookup_insert_ne; [by apply Hf|].
        intros <-. apply Hf in Hl. congruence.
    + intros k c' [[<- <-]|[Hne Hl]]%lookup_insert_Some.
      * apply lookup_insert_eq.
      * rewrite lookup_insert_ne; [by apply Hb|].
        intros <-. apply Hb in Hl. congruence.
    + intros k. rewrite lookup_insert_is_Some, Hc.
      destruct (decide (i = k)); [|intuition lia].
      subst k. assert (0 ≤ i).
      { destruct (Hc 0) as [H0 _]. rewrite (Hf _ _ Hs) in H0.
        specialize (H0 (mk_is_Some _ _ eq_refl)). lia. }
      split; [lia|by left].
    + rewrite lookup_insert_ne; [done|congruence].
    + intros c'. rewrite lookup_insert_is_Some, Hk, elem_of_app,
        list_elem_of_singleton.
      destruct (decide (c = c')); [subst; tauto|].
      intuition congruence.
    + rewrite map_size_insert_None by done. lia.
Qed.

Lemma scan_inv_foldl start seen st l :
  scan_inv start seen st → scan_inv start (seen ++ l) (foldl scan_char st l).
Proof.
  revert seen st. induction l as [|c l IH]; intros seen st Hinv; simpl.
  - by rewrite app_nil_r.
  - rewrite (assoc_L (++) seen [c] l : seen ++ c :: l = (seen ++ [c]) ++ l).
    apply IH. by apply scan_inv_step.
Qed.

Lemma scan_inv_corpus start smiles :
  scan_inv start (concat smiles)
    (scan (1, {[start := 0]}, {[0 := start]}) smiles).
Proof.
  rewrite scan_flat.
  apply (scan_inv_foldl start [] _ (concat smiles)), scan_inv_init.
Qed.

End VocabFacts.

Section VocabTheorems.

Import Codec.

(** Whatever the pad and start characters, decoding a code of [char_dict]
    gives its character back. *)
Lemma build_vocab_decodes smiles pad_char start_char char_dict ord_dict :
  build_vocab smiles pad_char start_char = (char_dict, ord_dict) →
  ∀ c k, char_dict !! c = Some k → ord_dict !! k = Some c.
Proof.
  unfold build_vocab.
  pose proof (scan_inv_corpus start_char smiles) as Hinv.
  destruct (scan _ smiles) as [[i cd] od].
  destruct Hinv as [Hf _ Hc _ _ _]; simpl in *.
  intros [= <- <-] c k [[<- <-]|[Hne Hl]]%lookup_insert_Some.
  - apply lookup_insert_eq.
  - rewrite lookup_insert_ne; [by apply Hf|].
    intros <-. apply Hf in Hl.
    destruct (Hc i) as [Hi _]. specialize (Hi (mk_is_Some _ _ Hl)). lia.
Qed.

(** C2 (as amended): for every corpus, pad character and start character
    such that the pad character differs from the start character and does
    not occur in the corpus, [build_vocab] returns two dictionaries that are
    inverse to each other, with the start character at code 0 and the pad
    character at the highest code, one past the codes of the corpus; the
    keys are the start character, the pad character and the characters of
    the corpus. *)
Theorem build_vocab_is_vocabulary smiles pad_char start_char char_dict ord_dict :
  build_vocab smiles pad_char start_char = (char_dict, ord_dict) →
  pad_char ≠ start_char →
  pad_char ∉ concat smiles →
  is_vocabulary start_char pad_char char_dict ord_dict ∧
  (∀ c, is_Some (char_dict !! c) ↔
        c = start_char ∨ c = pad_char ∨ c ∈ concat smiles) ∧
  char_dict !! pad_char = Some (Z.of_nat (size char_dict) - 1).
Proof.
  unfold build_vocab.
  pose proof (scan_inv_corpus start_char smiles) as Hinv.
  destruct (scan _ smiles) as [[i cd] od].
  destruct Hinv as [Hf Hb Hc Hs Hk Hz]; simpl in *.
  intros [= <- <-] Hne Hnot.
  assert (cd !! pad_char = None) as Hpad.
  { apply eq_None_not_Some. rewrite Hk. tauto. }
  assert (od !! i = None) as Hod.
  { apply eq_None_not_Some. rewrite Hc. lia. }
  assert (∀ c k, cd !! c = Some k → 0 ≤ k < i) as Hlt.
  { intros c k Hl. apply Hc. rewrite (Hf _ _ Hl). by eexists. }
  split; [split; [|split]|split].
  - intros c k. rewrite !lookup_insert_Some. split.
    + intros [[<- <-]|[? Hl]]; [by left|]. right.
      split; [|by apply Hf]. apply Hlt in Hl. lia.
    + intros [[<- <-]|[? Hl]]; [by left|]. right.
      split; [|by apply Hb]. intros <-. apply Hb in Hl. congruence.
  - rewrite lookup_insert_ne; done.
  - exists i. split; [apply lookup_insert_eq|]. split.
    + intros k. rewrite lookup_insert_is_Some, Hc.
      pose proof (Hlt _ _ Hs). destruct (decide (i = k)); intuition lia.
    + intros c k [[_ <-]|[_ Hl]]%lookup_insert_Some; [lia|].
      apply Hlt in Hl. lia.
  - intros c. rewrite lookup_insert_is_Some, Hk.
    destruct (decide (pad_char = c)); [subst; tauto|].
    intuition congruence.
  - rewrite lookup_insert_eq, map_size_insert_None by done. f_equal. lia.
Qed.

End VocabTheorems.

(** The witness: the corpus [["AB"; "BA"]] with the default characters. *)
Lemma build_vocab_is_vocabulary_witness :
  is_vocabulary "^" "_"
    (Codec.build_vocab [str "AB"; str "BA"] "_" "^").1
    (Codec.build_vocab [str "AB"; str "BA"] "_" "^").2.
Proof.
  refine (proj1 (build_vocab_is_vocabulary [str "AB"; str "BA"] "_"%char "^"%char
                   _ _ _ _ _)).
  - apply surjective_pairing.
  - discriminate.
  - by apply (bool_decide_unpack _).
Defined.

(** C2 (as stated) fails when the pad character occurs in the corpus: for the
    corpus [["_"]] and the default characters, code 1 decodes to ["_"] while
    ["_"] encodes to 2, so the dictionaries are not inverse to each other. *)
Lemma build_vocab_pad_collision :
  let '(char_dict, ord_dict) := Codec.build_vocab [str "_"] "_" "^" in
  ord_dict !! 1 = Some "_"%char ∧
  char_dict !! "_"%char = Some 2 ∧
  ¬ is_vocabulary "^" "_" char_dict ord_dict.
Proof.
  assert (H1 : (Codec.build_vocab [str "_"] "_" "^").2 !! 1 = Some "_"%char)
    by (vm_compute; reflexivity).
  assert (H2 : (Codec.build_vocab [str "_"] "_" "^").1 !! "_"%char = Some 2)
    by (vm_compute; reflexivity).
  destruct (Codec.build_vocab _ _ _) as [char_dict ord_dict]; simpl in *.
  split; [done|]. split; [done|].
  intros [Hinv _]. apply Hinv in H1. congruence.
Qed.

Section CodecTheorems.

Import Codec.

Lemma encode_pad s max_len (char_dict : gmap ascii Z) :
  Forall (λ c, is_Some (char_dict !! c)) s →
  (Z.of_nat (length s) < max_len → is_Some (char_dict !! default_pad_char)) →
  ∃ codes, encode s max_len char_dict = Some codes ∧
           Forall2 (λ c k, char_dict !! c = Some k)
             (pad s max_len default_pad_char) codes.
Proof.
  intros Hs Hpad.
  assert (is_Some (encode s max_len char_dict)) as [codes Hcodes].
  { apply mapM_is_Some, Forall_forall. intros c Hc. simpl.
    unfold pad in Hc. destruct (Z.ltb_spec max_len (Z.of_nat (length s))).
    - by eapply Forall_forall in Hs.
    - apply elem_of_app in Hc as [Hc|Hc].
      + by eapply Forall_forall in Hs.
      + apply elem_of_replicate in Hc as [-> Hn]. apply Hpad. lia. }
  exists codes. split; [done|]. by apply mapM_Some.
Qed.

(** The length of an encoded sequence, whenever there is one. *)
Lemma encode_length_max s max_len (char_dict : gmap ascii Z) codes :
  encode s max_len char_dict = Some codes →
  Z.of_nat (length codes) = Z.max (Z.of_nat (length s)) max_len.
Proof.
  intros H. apply length_mapM in H. rewrite <- H. apply pad_length.
Qed.

(** C3 (as amended): for every string [s] whose characters, and the pad
    character ["_"] that [encode] appends, are in the vocabulary, and every
    [max_len] with [len(s) <= max_len], [encode(s, max_len, char_dict)] is
    a sequence of integers of length exactly [max_len]. *)
Theorem encode_length s max_len (char_dict : gmap ascii Z) :
  Forall (λ c, is_Some (char_dict !! c)) s →
  is_Some (char_dict !! default_pad_char) →
  Z.of_nat (length s) ≤ max_len →
  ∃ codes, encode s max_len char_dict = Some codes ∧
           Z.of_nat (length codes) = max_len.
Proof.
  intros Hs Hpad Hlen.
  destruct (encode_pad s max_len char_dict Hs (λ _, Hpad)) as (codes & Hc & _).
  exists codes. split; [done|].
  rewrite (encode_length_max _ _ _ _ Hc). lia.
Qed.



(** C9: [pad(s, n)] returns [s] unchanged whenever [len(s) >= n]; otherwise
    the result has length exactly [n] and starts with [s]. *)
Theorem pad_spec (s : pystr) (n : Z) (pad_char : ascii) :
  (n ≤ Z.of_nat (length s) → pad s n pad_char = s) ∧
  (Z.of_nat (length s) < n →
     Z.of_nat (length (pad s n pad_char)) = n ∧
     s `prefix_of` pad s n pad_char).
Proof.
  split; intros Hn.
  - unfold pad. case_match; [done|].
    replace (Z.to_nat _) with 0%nat by lia. apply app_nil_r.
  - split; [rewrite pad_length; lia|].
    unfold pad. case_match; [done|]. by eexists.
Qed.

End CodecTheorems.



Lemma encode_length_witness :
  ∃ codes, Codec.encode (str "AB") 4 vocab_AB.1 = Some codes ∧
           Z.of_nat (length codes) = 4.
Proof.
  apply (encode_length (str "AB") 4 vocab_AB.1).
  - by_evaluation.
  - by_evaluation.
  - simpl; lia.
Defined.

(** C3 (as stated) fails for a string longer than [max_len]: [pad] does not
    truncate, so ["ABC"] encoded with [max_len = 2] has three codes. *)
Lemma encode_longer_than_max_len :
  let char_dict := (Codec.build_vocab [str "ABC"] "_" "^").1 in
  Forall (λ c, is_Some (char_dict !! c)) (str "ABC") ∧
  Codec.encode (str "ABC") 2 char_dict = Some [1; 2; 3] ∧
  Z.of_nat (length [1; 2; 3]) ≠ 2.
Proof.
  simpl. split; [by_evaluation|]. split; [vm_compute; reflexivity|]. simpl; lia.
Qed.

(** ** Reward shaping: [remap] *)

Section RemapTheorems.

Import Shaping.
Local Open Scope Q_scope.

(** The three branches of [remap], by the zero tests that select them. *)
Lemma remap_both_nonzero x x_min x_max :
  ¬ x_max == 0 → ¬ x_min == 0 → remap x x_min x_max = 0.
Proof.
  intros Hmax Hmin. unfold remap.
  destruct (Qeq_bool x_max 0) eqn:E1; [by apply Qeq_bool_iff in E1|].
  destruct (Qeq_bool x_min 0) eqn:E2; [by apply Qeq_bool_iff in E2|].
  done.
Qed.

(** C4 (as amended): [remap(5, 0, 10)] returns [0.5]; [x_min] is zero, so
    the branch that returns [0] is not taken and the value is rescaled. *)
Theorem remap_5_0_10 : remap 5 0 10 == 1 # 2.
Proof. reflexivity. Qed.

(** C4 (as stated) fails: [remap(5, 0, 10)] is not [0]. *)
Lemma remap_5_0_10_not_zero : ¬ remap 5 0 10 == 0.
Proof. discriminate. Qed.

(** C5 (as amended): [remap(x, c, c)] returns [x] unchanged when [c] is
    zero; for any other [c] the first test of [remap] holds and the result
    is [0], whatever [x]. *)
Theorem remap_degenerate (x c : Q) :
  remap x c c = if Qeq_bool c 0 then x else 0.
Proof.
  unfold remap. destruct (Qeq_bool c 0) eqn:E; simpl; [|done].
  apply Qeq_bool_iff in E.
  assert (Qeq_bool (c - c) 0 = true) as ->; [|done].
  apply Qeq_bool_iff. rewrite E. reflexivity.
Qed.

(** C5 (as stated) fails: [remap(3, 2, 2)] is [0], not [3]. *)
Lemma remap_3_2_2 : remap 3 2 2 = 0 ∧ ¬ remap 3 2 2 == 3.
Proof. split; [reflexivity|discriminate]. Qed.

End RemapTheorems.

(** ** Reward shaping: [constant_bump] *)

Section BumpTheorems.

Import Shaping.
Local Open Scope R_scope.

Lemma truediv_nonzero a b : b ≠ 0 → truediv a b = Val (a / b).
Proof. intros Hb. unfold truediv. by destruct (Req_dec_T b 0). Qed.

Lemma bump_below x x_low x_high decay :
  decay ≠ 0 → x <= x_low →
  constant_bump_func x x_low x_high decay = Val (exp (- (x - x_low) ^ 2 / decay)).
Proof.
  intros Hd Hx. unfold constant_bump_func.
  destruct (Rle_dec x x_low); [|done]. by rewrite truediv_nonzero.
Qed.

Lemma bump_above x x_low x_high decay :
  decay ≠ 0 → x_low < x → x_high <= x →
  constant_bump_func x x_low x_high decay = Val (exp (- (x - x_high) ^ 2 / decay)).
Proof.
  intros Hd Hlo Hhi. unfold constant_bump_func.
  destruct (Rle_dec x x_low); [lra|].
  destruct (Rge_dec x x_high); [|lra]. by rewrite truediv_nonzero.
Qed.

Lemma bump_inside x x_low x_high decay :
  x_low < x < x_high → constant_bump_func x x_low x_high decay = Val 1.
Proof.
  intros Hx. unfold constant_bump_func.
  destruct (Rle_dec x x_low); [lra|]. destruct (Rge_dec x x_high); [lra|done].
Qed.

Lemma gauss_at_edge e decay : exp (- (e - e) ^ 2 / decay) = 1.
Proof.
  replace (- (e - e) ^ 2 / decay) with 0; [apply exp_0|].
  unfold Rdiv. replace (e - e) with 0 by lra. simpl. lra.
Qed.

(** The Gaussian decay tends to 1 at the edge it is centred on. *)
Lemma gauss_near_edge e decay eps :
  0 < eps → ∃ delta, 0 < delta ∧
    ∀ x, Rabs (x - e) < delta → Rabs (exp (- (x - e) ^ 2 / decay) - 1) < eps.
Proof.
  intros Heps.
  assert (continuity (λ x, exp (- (x - e) ^ 2 / decay))) as Hcont.
  { apply derivable_continuous. reg. }
  destruct (Hcont e eps Heps) as (delta & Hdelta & Hlim).
  exists delta. split; [lra|]. intros x Hx.
  destruct (Req_dec_T e x) as [<-|Hne].
  - rewrite gauss_at_edge. rewrite Rminus_diag, Rabs_R0. lra.
  - specialize (Hlim x). pose proof (gauss_at_edge e decay) as Hedge.
    simpl in Hlim, Hedge |- *. unfold Rdist in Hlim.
    rewrite Hedge in Hlim. apply Hlim.
    split; [|done]. split; [exact I|done].
Qed.

Lemma bump_plateau x x_low x_high decay :
  decay ≠ 0 → x_low <= x <= x_high →
  constant_bump_func x x_low x_high decay = Val 1.
Proof.
  intros Hd [Hlo Hhi].
  destruct (Rle_lt_dec x x_low) as [Hx|Hx].
  - assert (x = x_low) as -> by lra.
    rewrite bump_below by (done || lra). by rewrite gauss_at_edge.
  - destruct (Rle_lt_dec x_high x) as [Hx'|Hx'].
    + assert (x = x_high) as -> by lra.
      rewrite bump_above by (done || lra). by rewrite gauss_at_edge.
    + apply bump_inside. lra.
Qed.

Lemma bump_continuous_low x_low x_high decay :
  decay ≠ 0 → x_low <= x_high →
  continuous_at (λ x, constant_bump_func x x_low x_high decay) x_low.
Proof.
  intros Hd Hle. exists 1. split; [apply bump_plateau; [done|lra]|].
  intros eps Heps.
  destruct (gauss_near_edge x_low decay eps Heps) as (d & Hd0 & Hnear).
  destruct (Rle_lt_dec x_high x_low) as [Heq|Hlt].
  - assert (x_high = x_low) as -> by lra.
    exists d. split; [done|]. intros x Hx.
    exists (exp (- (x - x_low) ^ 2 / decay)). split; [|by apply Hnear].
    destruct (Rle_lt_dec x x_low); [by apply bump_below|].
    apply bump_above; (done || lra).
  - exists (Rmin d (x_high - x_low)). split; [apply Rmin_glb_lt; lra|].
    intros x Hx.
    apply Rmin_Rgt_l in Hx as [Hx1 Hx2].
    apply Rabs_def2 in Hx2 as [Hx2 _].
    destruct (Rle_lt_dec x x_low).
    + exists (exp (- (x - x_low) ^ 2 / decay)).
      split; [by apply bump_below|apply Hnear; lra].
    + exists 1. split; [apply bump_inside; lra|].
      rewrite Rminus_diag, Rabs_R0. lra.
Qed.

Lemma bump_continuous_high x_low x_high decay :
  decay ≠ 0 → x_low <= x_high →
  continuous_at (λ x, constant_bump_func x x_low x_high decay) x_high.
Proof.
  intros Hd Hle. exists 1. split; [apply bump_plateau; [done|lra]|].
  intros eps Heps.
  destruct (gauss_near_edge x_high decay eps Heps) as (d & Hd0 & Hnear).
  destruct (Rle_lt_dec x_high x_low) as [Heq|Hlt].
  - assert (x_high = x_low) as -> by lra.
    exists d. split; [done|]. intros x Hx.
    exists (exp (- (x - x_low) ^ 2 / decay)). split; [|by apply Hnear].
    destruct (Rle_lt_dec x x_low); [by apply bump_below|].
    apply bump_above; (done || lra).
  - exists (Rmin d (x_high - x_low)). split; [apply Rmin_glb_lt; lra|].
    intros x Hx.
    apply Rmin_Rgt_l in Hx as [Hx1 Hx2].
    apply Rabs_def2 in Hx2 as [_ Hx2].
    destruct (Rle_lt_dec x_high x).
    + exists (exp (- (x - x_high) ^ 2 / decay)).
      split; [apply bump_above; (done || lra)|apply Hnear; lra].
    + exists 1. split; [apply bump_inside; lra|].
      rewrite Rminus_diag, Rabs_R0. lra.
Qed.

Lemma bump_sequence xs x_low x_high decay :
  decay ≠ 0 → Forall (λ x, x_low <= x <= x_high) xs →
  constant_bump (Sequence xs) x_low x_high decay
  = Val (Sequence (map (λ _, 1) xs)).
Proof.
  intros Hd Hxs. unfold constant_bump.
  assert (mapM (λ xi, constant_bump_func xi x_low x_high decay) xs
          = Val (map (λ _, 1) xs)) as ->; [|done].
  induction Hxs as [|x xs Hx _ IH]; [done|].
  cbn [mapM map]. rewrite (bump_plateau x) by done. cbn. by rewrite IH.
Qed.

(** C10: for every [x_low <= x_high] and every [decay > 0], [constant_bump]
    returns exactly 1 at [x == x_low] and at [x == x_high], the edges that
    fall into the branches of the Gaussian decay; so it equals 1 on the
    whole closed interval [[x_low, x_high]] (for a scalar and, element by
    element, for a sequence), and it is continuous at both edges. *)
Theorem constant_bump_closed_plateau x_low x_high decay :
  x_low <= x_high → 0 < decay →
  constant_bump (Scalar x_low) x_low x_high decay = Val (Scalar 1) ∧
  constant_bump (Scalar x_high) x_low x_high decay = Val (Scalar 1) ∧
  (∀ x, x_low <= x <= x_high →
        constant_bump (Scalar x) x_low x_high decay = Val (Scalar 1)) ∧
  (∀ xs, Forall (λ x, x_low <= x <= x_high) xs →
         constant_bump (Sequence xs) x_low x_high decay
         = Val (Sequence (map (λ _, 1) xs))) ∧
  continuous_at (λ x, constant_bump_func x x_low x_high decay) x_low ∧
  continuous_at (λ x, constant_bump_func x x_low x_high decay) x_high.
Proof.
  intros Hle Hdecay. assert (decay ≠ 0) as Hd by lra.
  assert (∀ x, x_low <= x <= x_high →
            constant_bump (Scalar x) x_low x_high decay = Val (Scalar 1)) as Hin.
  { intros x Hx. unfold constant_bump. by rewrite bump_plateau. }
  split; [apply Hin; lra|]. split; [apply Hin; lra|]. split; [done|].
  split; [intros xs; by apply bump_sequence|].
  split; [by apply bump_continuous_low|by apply bump_continuous_high].
Qed.

End BumpTheorems.

(** The witness: the plateau [[0, 1]] with the default decay [0.025]. *)
Lemma constant_bump_closed_plateau_witness :
  Shaping.constant_bump (Shaping.Scalar 0) 0 1 (25 / 1000)
  = Val (Shaping.Scalar 1%R).
Proof.
  refine (proj1 (constant_bump_closed_plateau 0 1 (25 / 1000) _ _)); lra.
Defined.

(** ** The validity oracle: [apply_to_valid] *)

Section OracleTheorems.

Import Oracle.
Context {Mol K : Type}.
Implicit Types (MolFromSmiles : pystr → outcome (option Mol))
  (GetNumAtoms : Mol → Z) (func : Mol → K → Q) (kwargs : K).

(** C6 (as amended): [apply_to_valid] returns [fun] applied to the parsed
    structure exactly when the string is not empty, the parser returns a
    structure and the structure has more than one atom; it returns [0.0]
    when the parser returns [None], when the string is empty and when the
    structure has at most one atom; it has no handler, so an exception
    raised by the parser reaches the caller. *)
Theorem apply_to_valid_spec MolFromSmiles GetNumAtoms smile func kwargs :
  (∀ m, MolFromSmiles smile = Val (Some m) →
        smile ≠ [] → 1 < GetNumAtoms m →
        apply_to_valid MolFromSmiles GetNumAtoms smile func kwargs
        = Val (func m kwargs)) ∧
  (∀ r, MolFromSmiles smile = Val r →
        smile = [] ∨ r = None ∨ (∃ m, r = Some m ∧ GetNumAtoms m ≤ 1) →
        apply_to_valid MolFromSmiles GetNumAtoms smile func kwargs = Val 0%Q) ∧
  (∀ e, MolFromSmiles smile = Raise e →
        apply_to_valid MolFromSmiles GetNumAtoms smile func kwargs = Raise e).
Proof.
  unfold apply_to_valid, valid. repeat split.
  - intros m -> Hne Hatoms. cbn.
    rewrite bool_decide_eq_false_2 by done.
    by destruct (Z.ltb_spec 1 (GetNumAtoms m)); [|lia].
  - intros r -> Hcases. cbn. destruct r as [m|]; [|done].
    destruct Hcases as [->|[?|(m' & [= <-] & Hatoms)]]; [done..|].
    destruct (Z.ltb_spec 1 (GetNumAtoms m)); [lia|].
    by rewrite andb_false_r.
  - by intros e ->.
Qed.

End OracleTheorems.

(** C6 (as stated) fails when the parser raises: the exception is the outcome
    of [apply_to_valid], not the [0.0] default. *)
Lemma apply_to_valid_parser_raises :
  Oracle.apply_to_valid raising_parser toy_atoms (str "?") (λ _ _, 1%Q) tt
  = Raise (ExternalError "parser failure") ∧
  ¬ ∃ v, Oracle.apply_to_valid raising_parser toy_atoms (str "?") (λ _ _, 1%Q) tt
         = Val v.
Proof.
  split; [reflexivity|]. intros [v Hv]. discriminate Hv.
Qed.

(** ** The reporter: [print_results] *)

(** Equations of the operations of [io], to run a program step by step. *)
Section IoFacts.

Import Report.
Context {A B : Type}.
Implicit Types (k : A → io B) (w : world).

Lemma bind_ret (a : A) k w : (mret a ≫= k) w = k a w.
Proof. reflexivity. Qed.

Lemma bind_lift_val (a : A) k w : (lift (Val a) ≫= k) w = k a w.
Proof. reflexivity. Qed.

Lemma bind_lift_raise e k w : (lift (Raise e) ≫= k) w = (Raise e, w).
Proof. reflexivity. Qed.

Lemma bind_raise e k w : (raise e ≫= k) w = (Raise e, w).
Proof. reflexivity. Qed.

Lemma bind_bind {C : Type} (m : io C) (h : C → io A) k w :
  ((m ≫= h) ≫= k) w = (m ≫= (λ c, h c ≫= k)) w.
Proof.
  unfold mbind, io_bind. destruct (m w) as [[c|e] w']; [|done].
  by destruct (h c w') as [[a|e] w''].
Qed.

End IoFacts.

Section IoStateFacts.

Import Report.
Context {B : Type}.
Implicit Types (w : world).

Lemma bind_print l (k : unit → io B) w :
  (print l ≫= k) w
  = k tt (World (results w) (stdout w ++ [l]) (dirs w) (files w)).
Proof. reflexivity. Qed.

Lemma bind_setitem key v (k : unit → io B) w :
  (setitem key v ≫= k) w
  = k tt (World (<[key := v]> (results w)) (stdout w) (dirs w) (files w)).
Proof. reflexivity. Qed.

Lemma bind_getitem key v (k : value → io B) w :
  results w !! key = Some v → (getitem key ≫= k) w = k v w.
Proof. intros H. unfold mbind, io_bind, getitem. by rewrite H. Qed.

Lemma bind_contains key (k : bool → io B) w :
  (contains key ≫= k) w = k (bool_decide (is_Some (results w !! key))) w.
Proof. reflexivity. Qed.

End IoStateFacts.

(** Runs [results[key]] when the lookup is the hypothesis [H]. *)
Ltac io_get H :=
  cbv beta; erewrite bind_getitem by (cbn [results]; exact H); cbv beta.

Section ReportTheorems.

Import Report.

(** The first percentage divides by the total: a total of zero raises,
    after the first two lines of the summary. *)
Lemma print_results_zero_total verified_samples unverified_samples w k :
  results w !! "n_samples" = Some (VInt 0) →
  results w !! "uniq_samples" = Some (VInt k) →
  print_results verified_samples unverified_samples w
  = (Raise ZeroDivisionError,
     World (results w)
       (stdout w ++ [Text "~~~ Summary Results ~~~"] ++ [Count "Total samples" 0])
       (dirs w) (files w)).
Proof.
  intros Hn Hu. unfold print_results, count_line.
  rewrite bind_print. io_get Hn. cbn [format_d].
  rewrite bind_lift_val, bind_print, bind_bind. io_get Hu.
  rewrite bind_bind. io_get Hn. cbn [format_d].
  rewrite bind_bind, bind_lift_val. cbn [Z.eqb].
  rewrite bind_raise. cbn. by rewrite <- app_assoc.
Qed.

(** C7 (the code at the failing input): on the record of an empty batch,
    [print_results] raises [ZeroDivisionError] at its first percentage. *)
Theorem print_results_empty_batch :
  print_results [] [] (world_of empty_batch_record)
  = (Raise ZeroDivisionError,
     World empty_batch_record
       [Text "~~~ Summary Results ~~~"; Count "Total samples" 0] ∅ ∅).
Proof.
  by rewrite (print_results_zero_total [] [] _ 0).
Qed.

Lemma print_samples_run (samples : list pystr) (acc : io unit) w w1 :
  acc w = (Val tt, w1) →
  foldl (λ acc s, _ ← acc; print (Sample s)) acc samples w
  = (Val tt, World (results w1) (stdout w1 ++ map Sample samples)
               (dirs w1) (files w1)).
Proof.
  revert acc w1. induction samples as [|s samples IH]; intros acc w1 Hacc.
  - simpl. rewrite app_nil_r. by destruct w1.
  - cbn [foldl map]. erewrite IH.
    2:{ unfold mbind, io_bind. rewrite Hacc. reflexivity. }
    cbn. by rewrite <- app_assoc.
Qed.

Lemma bind_print_examples {B : Type} header none samples (k : unit → io B) w :
  (print_examples header none samples ≫= k) w
  = k tt (World (results w)
            (stdout w ++ examples_lines header none samples)
            (dirs w) (files w)).
Proof.
  unfold print_examples, examples_lines.
  rewrite bind_bind, bind_print. cbv beta.
  destruct (10 <? Z.of_nat (length samples)).
  - unfold mbind at 1, io_bind at 1.
    erewrite (bind_print _ (λ _, foldl _ _ _)). cbv beta.
    erewrite print_samples_run by reflexivity.
    cbn. by rewrite <- !app_assoc.
  - rewrite bind_print. cbn. by rewrite <- !app_assoc.
Qed.

Lemma bind_count_line {B : Type} label key n total (k : unit → io B) w :
  results w !! key = Some (VInt n) →
  results w !! "n_samples" = Some (VInt total) →
  total ≠ 0 →
  (count_line label key ≫= k) w
  = k tt (World (results w)
            (stdout w ++ [CountPct label n (inject_Z n / inject_Z total * 100)%Q])
            (dirs w) (files w)).
Proof.
  intros Hkey Htotal Hnz. unfold count_line.
  rewrite bind_bind. io_get Hkey. rewrite bind_bind. io_get Htotal.
  cbn [format_d]. rewrite bind_bind, bind_lift_val.
  destruct (Z.eqb_spec total 0); [done|]. by rewrite bind_print.
Qed.


(** [pct], in the same module, guards its division. *)
Lemma pct_empty {A B : Type} (a : list A) : Shaping.pct a (@nil B) = 0%Q.
Proof. reflexivity. Qed.

End ReportTheorems.

(** ** The aggregator: [compute_results] *)

Lemma mapM_outcome_total {A B : Type} (f : A → outcome B) (l : list A) :
  Forall (λ x, ∃ y, f x = Val y) l →
  ∃ k, mapM f l = Val k ∧ length k = length l.
Proof.
  induction 1 as [|x l [y Hy] _ (k & Hk & Hlen)]; [by exists []|].
  exists (y :: k). cbn [mapM]. rewrite Hy. cbn. rewrite Hk. cbn.
  split; [done|]. by rewrite Hlen.
Qed.


Section AggregatorTheorems.

Import Report Aggregator.
Context {Mol : Type}.
Variable MolFromSmiles : pystr → outcome (option Mol).
Variable GetNumAtoms : Mol → Z.
Variable float_repr : option Q → pystr.

(** The parser returns on every string: a molecule or [None]. *)
Hypothesis parser_returns : ∀ s, ∃ r, MolFromSmiles s = Val r.




End AggregatorTheorems.

Lemma toy_parser_returns (s : pystr) : ∃ r, toy_parser s = Val r.
Proof. by eexists. Qed.



(** The failing input of C7 reached through the aggregator: the empty batch,
    with [verbose] set, leaves [empty_batch_record] and raises. *)
Lemma compute_results_empty_batch :
  Aggregator.compute_results toy_parser toy_atoms toy_repr [] [] ∅ true (world_of ∅)
  = (Raise ZeroDivisionError,
     World empty_batch_record
       [Text "~~~ Summary Results ~~~"; Count "Total samples" 0] ∅ ∅).
Proof. vm_compute. reflexivity. Qed.

(** * Further properties of the code *)

(** ** [pad] and [unpad] *)

Section PadUnpad.

Import Codec.
Implicit Types (s : pystr) (c : ascii) (n m : Z).

Lemma rstrip_decompose s c :
  ∃ k, s = rstrip s c ++ replicate k c ∧ last (rstrip s c) ≠ Some c.
Proof.
  induction s as [|x s (k & Hs & Hlast)]; [by exists 0%nat|].
  simpl. destruct (rstrip s c) as [|y t] eqn:Ht.
  - simpl in Hs. destruct (decide (x = c)) as [->|Hx].
    + exists (S k). by rewrite Hs.
    + exists k. rewrite Hs. split; [done|]. simpl. congruence.
  - exists k. split; [by rewrite Hs at 1|]. exact Hlast.
Qed.

Lemma last_app_replicate s k c : k ≠ 0%nat → last (s ++ replicate k c) = Some c.
Proof.
  intros Hk. destruct k as [|k]; [done|].
  rewrite replicate_S_end, (assoc_L (++)). apply last_snoc.
Qed.

Lemma rstrip_fixed s c : rstrip s c = s ↔ last s ≠ Some c.
Proof.
  destruct (rstrip_decompose s c) as (k & Hs & Hlast). split.
  - intros Heq. by rewrite Heq in Hlast.
  - intros Hs'. destruct k as [|k].
    + simpl in Hs. by rewrite app_nil_r in Hs.
    + rewrite Hs, last_app_replicate in Hs' by done. done.
Qed.

(** X1: [unpad] removes trailing pad characters and nothing else: the string is
    its unpadded part followed by pad characters only, the unpadded part does
    not end with one, and unpadding twice changes nothing more. *)
Theorem unpad_strips_trailing s c :
  (∃ k, s = unpad s c ++ replicate k c) ∧
  last (unpad s c) ≠ Some c ∧
  unpad (unpad s c) c = unpad s c.
Proof.
  unfold unpad. destruct (rstrip_decompose s c) as (k & Hs & Hlast).
  split; [by exists k|]. split; [done|]. by apply rstrip_fixed.
Qed.

Lemma pad_app s n c :
  pad s n c = s ++ replicate (Z.to_nat (n - Z.of_nat (length s))) c.
Proof.
  unfold pad. destruct (Z.ltb_spec n (Z.of_nat (length s))); [|done].
  replace (Z.to_nat _) with 0%nat by lia. by rewrite app_nil_r.
Qed.

Lemma rstrip_pad s n c : rstrip (pad s n c) c = rstrip s c.
Proof. rewrite pad_app. apply rstrip_app_nil, rstrip_replicate. Qed.

(** X2: Unpadding a padded string gives the unpadded original, for every string,
    length and pad character; so [unpad] undoes [pad] exactly on the strings
    that do not end with the pad character. *)
Theorem unpad_pad_any s n c :
  unpad (pad s n c) c = unpad s c ∧
  (unpad (pad s n c) c = s ↔ last s ≠ Some c).
Proof.
  unfold unpad. rewrite rstrip_pad. split; [done|]. apply rstrip_fixed.
Qed.

(** Padding twice is padding once to the larger length; in particular [pad]
    is idempotent, and it never shortens a string. *)
Theorem pad_pad s n m c :
  pad (pad s n c) m c = pad s (Z.max n m) c ∧
  s `prefix_of` pad s n c.
Proof.
  split; [|rewrite pad_app; by eexists].
  rewrite (pad_app (pad s n c)), !pad_app, length_app, length_replicate.
  rewrite <- (assoc_L (++)), <- replicate_add. do 2 f_equal. lia.
Qed.

End PadUnpad.

(** ** [encode] and [decode] *)

Section CodecMore.

Import Codec.
Implicit Types (s : pystr) (char_dict : gmap ascii Z) (ord_dict : gmap Z ascii).

(** X3: [encode] raises [KeyError] exactly when a character of the string is not
    in the dictionary, or when the string is shorter than [max_len] and the
    dictionary lacks the pad character ["_"]. *)
Theorem encode_key_error s max_len char_dict :
  encode s max_len char_dict = None ↔
  (∃ c, c ∈ s ∧ char_dict !! c = None) ∨
  (Z.of_nat (length s) < max_len ∧ char_dict !! default_pad_char = None).
Proof.
  unfold encode. rewrite mapM_None, Exists_exists, pad_app. split.
  - intros (c & [Hc|[-> Hk]%elem_of_replicate]%elem_of_app & Hnone).
    + left. by exists c.
    + right. split; [lia|done].
  - intros [(c & Hc & Hnone)|[Hlen Hnone]].
    + exists c. split; [|done]. apply elem_of_app. by left.
    + exists default_pad_char. split; [|done].
      apply elem_of_app. right. apply elem_of_replicate. split; [done|lia].
Qed.

(** The shape of an encoded string: the codes of its characters, in order,
    followed by [max_len - len(s)] copies of the code of ["_"]. *)
Theorem encode_shape s max_len char_dict codes :
  encode s max_len char_dict = Some codes →
  Forall2 (λ c k, char_dict !! c = Some k) s (take (length s) codes) ∧
  ∀ p, char_dict !! default_pad_char = Some p →
       drop (length s) codes
       = replicate (Z.to_nat (max_len - Z.of_nat (length s))) p.
Proof.
  unfold encode. rewrite pad_app. intros Hall%mapM_Some.
  apply Forall2_app_inv_l in Hall as (k1 & k2 & H1 & H2 & ->).
  pose proof (Forall2_length _ _ _ H1) as Hlen.
  rewrite take_app_length' by done. rewrite drop_app_length' by done.
  split; [done|]. intros p Hp.
  apply list_eq_Forall2, Forall2_flip.
  remember (Z.to_nat _) as k eqn:Hk. clear Hk.
  revert k2 H2. induction k as [|k IH]; intros k2 H2; simpl in *.
  - apply Forall2_nil_inv_l in H2 as ->. constructor.
  - apply Forall2_cons_inv_l in H2 as (q & k2' & Hq & H2 & ->).
    constructor; [congruence|by apply IH].
Qed.

(** X4: [decode] raises [KeyError] exactly when one of the codes is not in the
    dictionary; a string that it returns never ends with ["_"]. *)
Theorem decode_key_error ords ord_dict :
  (decode ords ord_dict = None ↔ ∃ o, o ∈ ords ∧ ord_dict !! o = None) ∧
  (∀ s, decode ords ord_dict = Some s → last s ≠ Some default_pad_char).
Proof.
  unfold decode. split.
  - rewrite <- Exists_exists, <- (mapM_None (λ o, ord_dict !! o)).
    destruct (mapM _ ords); simpl; split; congruence.
  - intros s. destruct (mapM _ ords) as [chars|]; simpl; [|done].
    intros [= <-]. unfold unpad.
    by destruct (rstrip_decompose chars default_pad_char) as (k & _ & Hlast).
Qed.

Lemma mapM_option_app {A B} (f : A → option B) (l1 l2 : list A) :
  mapM f (l1 ++ l2) = k1 ← mapM f l1; k2 ← mapM f l2; Some (k1 ++ k2).
Proof.
  induction l1 as [|x l1 IH]; simpl.
  - by destruct (mapM f l2).
  - destruct (f x); simpl; [|done]. rewrite IH.
    destruct (mapM f l1); simpl; [|done]. by destruct (mapM f l2).
Qed.

(** X5: [decode] does not see trailing pad codes: appending any number of codes
    of ["_"] to a sequence does not change what it decodes to. *)
Theorem decode_trailing_pad ords ord_dict p k :
  ord_dict !! p = Some default_pad_char →
  decode (ords ++ replicate k p) ord_dict = decode ords ord_dict.
Proof.
  intros Hp. unfold decode. rewrite mapM_option_app.
  assert (mapM (λ o, ord_dict !! o) (replicate k p)
          = Some (replicate k default_pad_char)) as ->.
  { apply mapM_Some, Forall2_replicate. done. }
  destruct (mapM _ ords) as [chars|]; simpl; [|done].
  f_equal. unfold unpad. apply rstrip_app_nil, rstrip_replicate.
Qed.

Lemma decode_encode_rstrip smiles pad_char start_char char_dict ord_dict s max_len :
  build_vocab smiles pad_char start_char = (char_dict, ord_dict) →
  Forall (λ c, is_Some (char_dict !! c)) s →
  (Z.of_nat (length s) < max_len → is_Some (char_dict !! default_pad_char)) →
  ∃ codes, encode s max_len char_dict = Some codes ∧
           decode codes ord_dict = Some (unpad s default_pad_char).
Proof.
  intros Hvocab Hs Hpad.
  destruct (encode_pad s max_len char_dict Hs Hpad) as (codes & Hc & Hall).
  exists codes. split; [done|]. unfold decode.
  assert (mapM (λ o, ord_dict !! o) codes = Some (pad s max_len default_pad_char))
    as ->.
  { apply mapM_Some, Forall2_flip.
    eapply Forall2_impl; [exact Hall|]. simpl.
    intros c k. apply (build_vocab_decodes _ _ _ _ _ Hvocab). }
  simpl. f_equal. apply rstrip_pad.
Qed.

(** X6: What comes back from a round trip, in general: for a vocabulary built by
    [build_vocab] (any pad and start character) and a string whose padded
    form is in the vocabulary, decoding the encoded string gives the string
    without its trailing ["_"] characters. *)
Theorem decode_encode_unpad smiles pad_char start_char char_dict ord_dict s max_len :
  build_vocab smiles pad_char start_char = (char_dict, ord_dict) →
  Forall (λ c, is_Some (char_dict !! c)) s →
  (Z.of_nat (length s) < max_len → is_Some (char_dict !! default_pad_char)) →
  ∃ codes, encode s max_len char_dict = Some codes ∧
           decode codes ord_dict = Some (unpad s default_pad_char).
Proof. apply decode_encode_rstrip. Qed.

End CodecMore.

Lemma decode_encode_unpad_witness :
  ∃ codes, Codec.encode (str "AB__") 6 vocab_AB.1 = Some codes ∧
           Codec.decode codes vocab_AB.2 = Some (str "AB").
Proof.
  apply (decode_encode_unpad [str "AB"; str "BA"] "_"%char "^"%char
           vocab_AB.1 vocab_AB.2 (str "AB__") 6).
  - apply surjective_pairing.
  - by_evaluation.
  - intros _. by_evaluation.
Defined.

Lemma decode_trailing_pad_witness :
  Codec.decode ([1; 2] ++ replicate 3 3) vocab_AB.2
  = Codec.decode [1; 2] vocab_AB.2.
Proof.
  apply (decode_trailing_pad [1; 2] vocab_AB.2 3 3%nat).
  vm_compute. reflexivity.
Defined.

Lemma encode_shape_witness :
  Forall2 (λ c k, vocab_AB.1 !! c = Some k) (str "AB")
    (take (length (str "AB")) [1; 2; 3; 3]) ∧
  ∀ p, vocab_AB.1 !! Codec.default_pad_char = Some p →
       drop (length (str "AB")) [1; 2; 3; 3]
       = replicate (Z.to_nat (4 - Z.of_nat (length (str "AB")))) p.
Proof.
  apply (encode_shape (str "AB") 4 vocab_AB.1 [1; 2; 3; 3]).
  vm_compute. reflexivity.
Defined.

(** ** [build_vocab] *)

Section VocabMore.

Import Codec.

Lemma scan_char_keeps (st : vocab_state) c' c k :
  st.1.2 !! c = Some k → (scan_char st c').1.2 !! c = Some k.
Proof.
  destruct st as [[i cd] od]; simpl. intros Hc.
  destruct (cd !! c') eqn:Hc'; simpl; [done|].
  rewrite lookup_insert_ne; [done|congruence].
Qed.

Lemma foldl_scan_char_keeps l (st : vocab_state) c k :
  st.1.2 !! c = Some k → (foldl scan_char st l).1.2 !! c = Some k.
Proof.
  revert st. induction l as [|c' l IH]; intros st Hc; simpl; [done|].
  by apply IH, scan_char_keeps.
Qed.

(** The result of [build_vocab] in terms of the state after the scan. *)
Lemma build_vocab_scan smiles pad_char start_char :
  build_vocab smiles pad_char start_char
  = let st := foldl scan_char (1, {[start_char := 0]}, {[0 := start_char]})
                (concat smiles) in
    (<[pad_char := st.1.1]> st.1.2, <[st.1.1 := pad_char]> st.2).
Proof.
  unfold build_vocab. rewrite scan_flat.
  by destruct (foldl _ _ _) as [[i cd] od].
Qed.

Lemma build_vocab_keys smiles pad_char start_char c :
  is_Some ((build_vocab smiles pad_char start_char).1 !! c) ↔
  c = start_char ∨ c = pad_char ∨ c ∈ concat smiles.
Proof.
  rewrite build_vocab_scan.
  pose proof (scan_inv_foldl start_char [] _ (concat smiles)
                (scan_inv_init start_char)) as [_ _ _ _ Hk _].
  simpl in *. rewrite lookup_insert_is_Some, Hk.
  destruct (decide (pad_char = c)); [subst; tauto|]. intuition congruence.
Qed.

(** X7: Whatever the corpus and the two characters (collisions included): a code
    of [char_dict] decodes to its character; the pad character has the
    highest code [n] and code [n] decodes to it; the codes of [ord_dict] are
    exactly [0..n]; and the keys of [char_dict] are the start character, the
    pad character and the characters of the corpus. *)
Theorem build_vocab_always smiles pad_char start_char :
  let char_dict := (build_vocab smiles pad_char start_char).1 in
  let ord_dict := (build_vocab smiles pad_char start_char).2 in
  (∀ c k, char_dict !! c = Some k → ord_dict !! k = Some c) ∧
  (∃ n, char_dict !! pad_char = Some n ∧ ord_dict !! n = Some pad_char ∧
        (∀ k, is_Some (ord_dict !! k) ↔ 0 ≤ k ≤ n) ∧
        (∀ c k, char_dict !! c = Some k → 0 ≤ k ≤ n)) ∧
  (∀ c, is_Some (char_dict !! c) ↔
        c = start_char ∨ c = pad_char ∨ c ∈ concat smiles).
Proof.
  cbv zeta. split; [|split].
  - apply (build_vocab_decodes smiles pad_char start_char), surjective_pairing.
  - rewrite build_vocab_scan.
    pose proof (scan_inv_foldl start_char [] _ (concat smiles)
                  (scan_inv_init start_char)) as [Hf _ Hc Hs _ _].
    destruct (foldl _ _ _) as [[i cd] od]; simpl in *.
    assert (∀ c k, cd !! c = Some k → 0 ≤ k < i) as Hlt.
    { intros c k Hl. apply Hc. rewrite (Hf _ _ Hl). by eexists. }
    pose proof (Hlt _ _ Hs).
    exists i. split; [apply lookup_insert_eq|]. split; [apply lookup_insert_eq|].
    split.
    + intros k. rewrite lookup_insert_is_Some, Hc.
      destruct (decide (i = k)); intuition lia.
    + intros c k [[_ <-]|[_ Hl]]%lookup_insert_Some; [lia|].
      apply Hlt in Hl. lia.
  - apply build_vocab_keys.
Qed.

(** The vocabulary depends on the corpus through the sequence of its
    characters only: how the corpus is cut into strings does not matter. *)
Theorem build_vocab_concat smiles pad_char start_char :
  build_vocab smiles pad_char start_char
  = build_vocab [concat smiles] pad_char start_char.
Proof.
  rewrite !build_vocab_scan. simpl. by rewrite app_nil_r.
Qed.

(** X8: Adding strings to the corpus keeps the code of every character that the
    corpus already had (the pad character apart, which moves to the end),
    and the larger vocabulary decodes that code to the same character. *)
Theorem build_vocab_extend smiles more pad_char start_char c :
  c ≠ pad_char →
  c = start_char ∨ c ∈ concat smiles →
  ∃ k, (build_vocab smiles pad_char start_char).1 !! c = Some k ∧
       (build_vocab (smiles ++ more) pad_char start_char).1 !! c = Some k ∧
       (build_vocab (smiles ++ more) pad_char start_char).2 !! k = Some c.
Proof.
  intros Hpad Hc.
  assert (∃ k, (build_vocab smiles pad_char start_char).1 !! c = Some k
               ∧ (build_vocab (smiles ++ more) pad_char start_char).1 !! c = Some k)
    as (k & H1 & H2).
  { rewrite !build_vocab_scan, concat_app, foldl_app. simpl.
    pose proof (scan_inv_foldl start_char [] _ (concat smiles)
                  (scan_inv_init start_char)) as [_ _ _ _ Hk _].
    simpl in Hk. destruct (proj2 (Hk c) Hc) as [k Hk'].
    exists k. rewrite !lookup_insert_ne by done.
    split; [done|]. by apply foldl_scan_char_keeps. }
  exists k. split; [done|]. split; [done|].
  eapply build_vocab_decodes; [apply surjective_pairing|done].
Qed.

(** X9: Codes follow the order of first occurrence: a character first seen after
    another one (or after the start character) has the larger code. *)
Theorem build_vocab_first_seen smiles pad_char start_char l1 c l2 c' :
  concat smiles = l1 ++ c :: l2 →
  c ∉ l1 → c ≠ start_char → c ≠ pad_char →
  c' ≠ pad_char → c' = start_char ∨ c' ∈ l1 →
  ∃ k k', (build_vocab smiles pad_char start_char).1 !! c = Some k ∧
          (build_vocab smiles pad_char start_char).1 !! c' = Some k' ∧
          k' < k.
Proof.
  intros Hcat Hc1 Hcs Hcp Hcp' Hc'.
  rewrite build_vocab_scan, Hcat, foldl_app. simpl.
  pose proof (scan_inv_foldl start_char [] _ l1 (scan_inv_init start_char))
    as [Hf _ Hcodes _ Hk _].
  destruct (foldl scan_char _ l1) as [[i cd] od]; simpl in *.
  destruct (proj2 (Hk c') Hc') as [k' Hk'].
  assert (cd !! c = None) as Hnone.
  { apply eq_None_not_Some. rewrite Hk. tauto. }
  assert (k' < i) as Hlt.
  { apply Hcodes. rewrite (Hf _ _ Hk'). by eexists. }
  exists i, k'. rewrite !lookup_insert_ne by done.
  rewrite Hnone.
  split; [|split; [|done]].
  - apply foldl_scan_char_keeps. simpl. apply lookup_insert_eq.
  - apply foldl_scan_char_keeps. simpl.
    rewrite lookup_insert_ne; [done|congruence].
Qed.

(** X10: Every string of the corpus can be encoded with the vocabulary built from
    it with the default pad character, at every length, and decodes to
    itself without its trailing ["_"]. *)
Theorem corpus_roundtrip smiles start_char s max_len :
  s ∈ smiles →
  ∃ codes,
    encode s max_len (build_vocab smiles default_pad_char start_char).1
    = Some codes ∧
    decode codes (build_vocab smiles default_pad_char start_char).2
    = Some (unpad s default_pad_char).
Proof.
  intros Hs.
  apply (decode_encode_rstrip smiles default_pad_char start_char).
  - apply surjective_pairing.
  - apply Forall_forall. intros c Hc. apply build_vocab_keys.
    right. right. apply list_elem_of_In, in_concat.
    exists s. by rewrite <- !list_elem_of_In.
  - intros _. apply build_vocab_keys. tauto.
Qed.

End VocabMore.

Lemma build_vocab_extend_witness :
  ∃ k, (Codec.build_vocab [str "AB"] "_" "^").1 !! "B"%char = Some k ∧
       (Codec.build_vocab ([str "AB"] ++ [str "CB"]) "_" "^").1 !! "B"%char = Some k ∧
       (Codec.build_vocab ([str "AB"] ++ [str "CB"]) "_" "^").2 !! k = Some "B"%char.
Proof.
  apply (build_vocab_extend [str "AB"] [str "CB"] "_"%char "^"%char "B"%char).
  - discriminate.
  - right. by_evaluation.
Defined.

Lemma build_vocab_first_seen_witness :
  ∃ k k', (Codec.build_vocab [str "AB"; str "BA"] "_" "^").1 !! "B"%char = Some k ∧
          (Codec.build_vocab [str "AB"; str "BA"] "_" "^").1 !! "A"%char = Some k' ∧
          k' < k.
Proof.
  apply (build_vocab_first_seen [str "AB"; str "BA"] "_"%char "^"%char
           (str "A") "B"%char (str "BA") "A"%char).
  - reflexivity.
  - by_evaluation.
  - discriminate.
  - discriminate.
  - discriminate.
  - right. by_evaluation.
Defined.

Lemma corpus_roundtrip_witness :
  ∃ codes,
    Codec.encode (str "BA") 4
      (Codec.build_vocab [str "AB"; str "BA"] Codec.default_pad_char "^").1
    = Some codes ∧
    Codec.decode codes
      (Codec.build_vocab [str "AB"; str "BA"] Codec.default_pad_char "^").2
    = Some (Codec.unpad (str "BA") Codec.default_pad_char).
Proof.
  apply (corpus_roundtrip [str "AB"; str "BA"] "^"%char (str "BA") 4).
  by_evaluation.
Defined.

(** ** Reward shaping: the Gaussian functions *)

Section ShapingMore.

Import Shaping.
Local Open Scope R_scope.





(** X12: The indicator and the bump: [constant_range_func] is 1 strictly inside
    the interval and 0 elsewhere, the two edges included; wherever it is 1
    the bump is 1; at the edges of an interval it is 0 while the bump is 1. *)
Theorem constant_range_and_bump x x_low x_high decay :
  0 < decay →
  (constant_range_func x x_low x_high = 1 ↔ x_low < x < x_high) ∧
  (constant_range_func x x_low x_high = 0 ↔ ¬ x_low < x < x_high) ∧
  (constant_range_func x x_low x_high = 1 →
     constant_bump_func x x_low x_high decay = Val 1) ∧
  (x_low <= x_high → x = x_low ∨ x = x_high →
     constant_range_func x x_low x_high = 0 ∧
     constant_bump_func x x_low x_high decay = Val 1).
Proof.
  intros Hdecay. assert (decay ≠ 0) as Hd by lra.
  assert (constant_range_func x x_low x_high = 1 ↔ x_low < x < x_high) as H1.
  { unfold constant_range_func.
    destruct (Rle_dec x x_low); [split; lra|].
    destruct (Rge_dec x x_high); split; lra. }
  assert (constant_range_func x x_low x_high = 0 ↔ ¬ x_low < x < x_high) as H0.
  { unfold constant_range_func.
    destruct (Rle_dec x x_low); [split; lra|].
    destruct (Rge_dec x x_high); split; lra. }
  split; [done|]. split; [done|]. split.
  - intros Hin%H1. by apply bump_inside.
  - intros Hle Hedge. split; [apply H0; lra|].
    apply bump_plateau; [done|lra].
Qed.

Lemma plateau_increase_below x x_point decay :
  decay ≠ 0 → x <= x_point →
  smooth_plateau_func x x_point decay true
  = Val (exp (- (x - x_point) ^ 2 / decay)).
Proof.
  intros Hd Hx. unfold smooth_plateau_func.
  destruct (Rle_dec x x_point); [|done]. by rewrite truediv_nonzero.
Qed.

Lemma plateau_increase_above x x_point decay :
  x_point < x → smooth_plateau_func x x_point decay true = Val 1.
Proof.
  intros Hx. unfold smooth_plateau_func. destruct (Rle_dec x x_point); [lra|done].
Qed.

Lemma plateau_decrease_above x x_point decay :
  decay ≠ 0 → x_point <= x →
  smooth_plateau_func x x_point decay false
  = Val (exp (- (x - x_point) ^ 2 / decay)).
Proof.
  intros Hd Hx. unfold smooth_plateau_func.
  destruct (Rge_dec x x_point); [|lra]. by rewrite truediv_nonzero.
Qed.

Lemma plateau_decrease_below x x_point decay :
  x < x_point → smooth_plateau_func x x_point decay false = Val 1.
Proof.
  intros Hx. unfold smooth_plateau_func. destruct (Rge_dec x x_point); [lra|done].
Qed.



(** X15: For [x_low <= x_high], the bump is the product of the increasing plateau
    at [x_low] and the decreasing plateau at [x_high]. *)
Theorem constant_bump_is_product x x_low x_high decay :
  decay ≠ 0 → x_low <= x_high →
  ∃ a b, smooth_plateau_func x x_low decay true = Val a ∧
         smooth_plateau_func x x_high decay false = Val b ∧
         constant_bump_func x x_low x_high decay = Val (a * b).
Proof.
  intros Hd Hle.
  destruct (Rle_lt_dec x x_low) as [Hlo|Hlo].
  - rewrite plateau_increase_below, bump_below by done.
    destruct (Rle_lt_dec x_high x) as [Hhi|Hhi].
    + assert (x = x_high) as -> by lra. assert (x_low = x_high) as -> by lra.
      rewrite plateau_decrease_above by (done || lra).
      eexists _, _. split; [done|]. split; [done|].
      rewrite gauss_at_edge. f_equal. lra.
    + rewrite plateau_decrease_below by done.
      eexists _, _. split; [done|]. split; [done|]. f_equal. lra.
  - rewrite plateau_increase_above by done.
    destruct (Rle_lt_dec x_high x) as [Hhi|Hhi].
    + rewrite plateau_decrease_above, bump_above by done.
      eexists _, _. split; [done|]. split; [done|]. f_equal. lra.
    + rewrite plateau_decrease_below, bump_inside by (done || lra).
      eexists _, _. split; [done|]. split; [done|]. f_equal. lra.
Qed.


End ShapingMore.


Lemma constant_range_and_bump_witness :
  Shaping.constant_range_func 0 0 1 = 0%R ↔ ¬ (0 < 0 < 1)%R.
Proof.
  refine (proj1 (proj2 (constant_range_and_bump 0 0 1 (25 / 1000) _))). lra.
Defined.


Lemma constant_bump_is_product_witness :
  ∃ a b, Shaping.smooth_plateau_func 2 0 (25 / 1000) true = Val a ∧
         Shaping.smooth_plateau_func 2 1 (25 / 1000) false = Val b ∧
         Shaping.constant_bump_func 2 0 1 (25 / 1000) = Val (a * b)%R.
Proof. apply (constant_bump_is_product 2 0 1 (25 / 1000)); lra. Defined.

(** ** Reward shaping: [remap], [pct] and the vectorised calls *)

Section RemapMore.

Import Shaping.
Local Open Scope Q_scope.

Lemma remap_rescales x x_min x_max :
  x_min == 0 ∨ x_max == 0 → ¬ x_min == x_max →
  remap x x_min x_max = (x - x_min) / (x_max - x_min).
Proof.
  intros Hzero Hne. unfold remap.
  assert (negb (Qeq_bool x_max 0) && negb (Qeq_bool x_min 0) = false) as ->.
  { destruct Hzero as [H|H]; apply Qeq_bool_iff in H; rewrite H; simpl;
      [apply andb_false_r|done]. }
  destruct (Qeq_bool (x_max - x_min) 0) eqn:E; [|done].
  apply Qeq_bool_iff in E. exfalso. apply Hne.
  rewrite <- (Qplus_0_l x_min) at 1. rewrite <- E. ring.
Qed.

(** X17: The contract of the docstring ([x_min] goes to 0 and [x_max] to 1) holds
    for distinct bounds exactly when one of them is zero. *)
Theorem remap_contract_iff x_min x_max :
  ¬ x_min == x_max →
  (remap x_min x_min x_max == 0 ∧ remap x_max x_min x_max == 1) ↔
  (x_min == 0 ∨ x_max == 0).
Proof.
  intros Hne. split.
  - intros [_ H1].
    destruct (Qeq_dec x_min 0) as [|Hmin]; [by left|].
    destruct (Qeq_dec x_max 0) as [|Hmax]; [by right|].
    rewrite remap_both_nonzero in H1 by done. discriminate H1.
  - intros Hzero. rewrite !remap_rescales by done.
    assert (¬ x_max - x_min == 0) as Hd.
    { intros E. apply Hne. rewrite <- (Qplus_0_l x_min) at 1. rewrite <- E. ring. }
    split; field; done.
Qed.

(** When one bound is zero and [x_min < x_max], values between the bounds
    are mapped into [[0, 1]], in order. *)
Theorem remap_unit_interval x y x_min x_max :
  x_min == 0 ∨ x_max == 0 → x_min < x_max →
  x_min <= x → x <= y → y <= x_max →
  0 <= remap x x_min x_max ∧
  remap x x_min x_max <= remap y x_min x_max ∧
  remap y x_min x_max <= 1.
Proof.
  intros Hzero Hlt Hx Hxy Hy.
  assert (¬ x_min == x_max) as Hne.
  { intros E. rewrite E in Hlt. by apply Qlt_irrefl in Hlt. }
  rewrite !remap_rescales by done.
  assert (0 < x_max - x_min) as Hpos.
  { rewrite <- (Qplus_opp_r x_min). unfold Qminus.
    by apply Qplus_lt_l. }
  split; [|split].
  - apply Qle_shift_div_l; [done|]. rewrite Qmult_0_l.
    rewrite <- (Qplus_opp_r x_min). unfold Qminus. by apply Qplus_le_l.
  - unfold Qdiv. apply Qmult_le_compat_r.
    + unfold Qminus. by apply Qplus_le_l.
    + by apply Qlt_le_weak, Qinv_lt_0_compat.
  - apply Qle_shift_div_r; [done|]. rewrite Qmult_1_l.
    unfold Qminus. by apply Qplus_le_l.
Qed.

(** X18: [pct] never divides by zero: it is a ratio in [[0, 1]] when [a] is not
    longer than [b], and it is zero exactly when one of the lists is empty. *)
Theorem pct_range {A B : Type} (a : list A) (b : list B) :
  0 <= pct a b ∧
  ((length a ≤ length b)%nat → pct a b <= 1) ∧
  (pct a b == 0 ↔ a = [] ∨ b = []).
Proof.
  unfold pct. destruct b as [|y b]; simpl.
  { split; [done|]. split; [done|]. split; [by right|done]. }
  assert (0 < inject_Z (Z.of_nat (S (length b)))) as Hpos.
  { rewrite <- (Zlt_Qlt 0). lia. }
  split; [|split].
  - apply Qle_shift_div_l; [done|]. rewrite Qmult_0_l.
    rewrite <- (Zle_Qle 0). lia.
  - intros Hlen. apply Qle_shift_div_r; [done|]. rewrite Qmult_1_l.
    rewrite <- Zle_Qle. lia.
  - destruct a as [|x a]; simpl.
    + split; [by left|]. intros _. reflexivity.
    + split; [|intros [?|?]; done].
      intros Hz. exfalso.
      assert (0 < inject_Z (Z.of_nat (S (length a)))
                  / inject_Z (Z.of_nat (S (length b)))) as Hgt.
      { apply Qlt_shift_div_l; [done|]. rewrite Qmult_0_l.
        rewrite <- (Zlt_Qlt 0). lia. }
      rewrite Hz in Hgt. by apply Qlt_irrefl in Hgt.
Qed.

End RemapMore.

Lemma remap_contract_iff_witness :
  (Shaping.remap 0 0 10 == 0 ∧ Shaping.remap 10 0 10 == 1)%Q ↔
  (0 == 0 ∨ 10 == 0)%Q.
Proof. apply (remap_contract_iff 0 10). discriminate. Defined.

Lemma remap_unit_interval_witness :
  (0 <= Shaping.remap 2 0 10 ∧
   Shaping.remap 2 0 10 <= Shaping.remap 5 0 10 ∧
   Shaping.remap 5 0 10 <= 1)%Q.
Proof.
  apply (remap_unit_interval 2 5 0 10); [by left|reflexivity|discriminate..].
Defined.

Lemma mapM_outcome_Val {A B : Type} (f : A → outcome B) (l : list A) (k : list B) :
  mapM f l = Val k ↔ Forall2 (λ x y, f x = Val y) l k.
Proof.
  revert k. induction l as [|x l IH]; intros k; cbn [mapM].
  - split; [intros [= <-]; constructor|by intros ->%Forall2_nil_inv_l].
  - split.
    + destruct (f x) as [y|e] eqn:Hy; cbn; [|done].
      destruct (mapM f l) as [k'|e] eqn:Hk; cbn; [|done].
      intros [= <-]. constructor; [done|by apply IH].
    + intros (y & k' & Hy & Hk & ->)%Forall2_cons_inv_l.
      rewrite Hy. cbn. apply IH in Hk. by rewrite Hk.
Qed.

Lemma mapM_outcome_Raise {A B : Type} (f : A → outcome B) (l : list A) :
  (∃ e, mapM f l = Raise e) ↔ ∃ x e, x ∈ l ∧ f x = Raise e.
Proof.
  induction l as [|x l IH]; cbn [mapM].
  - split; [by intros [e ?]|by intros (x & e & ?%elem_of_nil & _)].
  - destruct (f x) as [y|e] eqn:Hy; cbn.
    + destruct (mapM f l) as [k|e] eqn:Hk; cbn.
      * split; [by intros [e ?]|].
        intros (x' & e & [->|Hin]%elem_of_cons & Hx'); [congruence|].
        destruct (proj2 IH) as [? ?]; [by exists x', e|done].
      * split; [|by exists e]. intros _.
        destruct (proj1 IH) as (x' & e' & Hin & Hx'); [by exists e|].
        exists x', e'. split; [by right|done].
    + split; [|by exists e]. intros _. exists x, e. split; [by left|done].
Qed.

Section VectorisedTheorems.

Import Shaping.
Local Open Scope R_scope.

(** On a sequence [constant_bump] works element by element: it returns the
    sequence of the scalar results, in order and of the same length; with
    [decay ≠ 0] it always returns, and with [decay = 0] it raises as soon as
    one element lies outside the open interval. *)
Theorem constant_bump_elementwise xs x_low x_high decay :
  (∀ ys, constant_bump (Sequence xs) x_low x_high decay = Val (Sequence ys) ↔
         Forall2 (λ x y, constant_bump (Scalar x) x_low x_high decay
                         = Val (Scalar y)) xs ys) ∧
  (decay ≠ 0 →
     ∃ ys, constant_bump (Sequence xs) x_low x_high decay = Val (Sequence ys) ∧
           length ys = length xs) ∧
  (decay = 0 → (∃ x, x ∈ xs ∧ ¬ x_low < x < x_high) →
     constant_bump (Sequence xs) x_low x_high decay = Raise ZeroDivisionError).
Proof.
  assert (∀ x y, constant_bump (Scalar x) x_low x_high decay = Val (Scalar y)
                 ↔ constant_bump_func x x_low x_high decay = Val y) as Hscalar.
  { intros x y. unfold constant_bump.
    destruct (constant_bump_func x x_low x_high decay) as [a|e]; cbn.
    - split; intros [= ->]; done.
    - split; intros [=]. }
  split; [|split].
  - intros ys. unfold constant_bump at 1.
    destruct (mapM _ xs) as [ys'|e] eqn:Hm; cbn.
    + apply mapM_outcome_Val in Hm. split.
      * intros [= <-]. eapply Forall2_impl; [exact Hm|]. intros. by apply Hscalar.
      * intros Hall. do 2 f_equal. symmetry. apply mapM_outcome_Val in Hm.
        assert (mapM (λ xi, constant_bump_func xi x_low x_high decay) xs
                = Val ys) as Hys.
        { apply mapM_outcome_Val. eapply Forall2_impl; [exact Hall|].
          intros. by apply Hscalar. }
        congruence.
    + split; [done|]. intros Hall.
      assert (mapM (λ xi, constant_bump_func xi x_low x_high decay) xs
              = Val ys) as Hys.
      { apply mapM_outcome_Val. eapply Forall2_impl; [exact Hall|].
        intros. by apply Hscalar. }
      congruence.
  - intros Hd.
    destruct (mapM_outcome_total
                (λ xi, constant_bump_func xi x_low x_high decay) xs)
      as (ys & Hys & Hlen).
    { apply Forall_forall. intros x _.
      destruct (Rle_lt_dec x x_low); [eexists; by apply bump_below|].
      destruct (Rle_lt_dec x_high x); [eexists; by apply bump_above|].
      exists 1. by apply bump_inside. }
    exists ys. unfold constant_bump. by rewrite Hys.
  - intros -> (x & Hin & Hout). unfold constant_bump.
    assert (∀ x' e, constant_bump_func x' x_low x_high 0 = Raise e →
                    e = ZeroDivisionError) as Honly.
    { intros x' e. unfold constant_bump_func, truediv.
      destruct (Req_dec_T 0 0); [|done].
      destruct (Rle_dec x' x_low); cbn; [congruence|].
      destruct (Rge_dec x' x_high); cbn; [congruence|done]. }
    destruct (mapM _ xs) as [ys|e] eqn:Hm; cbn.
    + exfalso. apply mapM_outcome_Val in Hm.
      apply list_elem_of_lookup in Hin as [i Hi].
      destruct (Forall2_lookup_l _ _ _ _ _ Hm Hi) as (y & _ & Hy).
      revert Hy. unfold constant_bump_func, truediv.
      destruct (Req_dec_T 0 0); [|done].
      destruct (Rle_dec x x_low); cbn; [done|].
      destruct (Rge_dec x x_high); cbn; [done|]. lra.
    + f_equal. clear Hin Hout x.
      revert e Hm. induction xs as [|x0 xs IH]; intros e; cbn [mapM]; [done|].
      destruct (constant_bump_func x0 x_low x_high 0) as [y|e0] eqn:H0; cbn.
      * destruct (mapM _ xs) as [k|e1]; cbn; [done|].
        intros [= <-]. by apply IH.
      * intros [= <-]. by eapply Honly.
Qed.

End VectorisedTheorems.

(** ** The validity oracle *)

Section OracleMore.

Import Oracle.
Context {Mol K : Type}.
Variable MolFromSmiles : pystr → outcome (option Mol).
Variable GetNumAtoms : Mol → Z.

Local Abbreviation verify := (verify_sequence MolFromSmiles GetNumAtoms).

(** X19: [apply_to_valid] and [verify_sequence] agree: the function is applied
    exactly on the strings that verify, the default [0.0] is returned exactly
    on those that do not, and both raise on the same strings, the same
    exception. *)
Theorem apply_to_valid_verify smile (func : Mol → K → Q) kwargs :
  (verify smile = Val true →
     ∃ m, MolFromSmiles smile = Val (Some m) ∧ 1 < GetNumAtoms m ∧
          apply_to_valid MolFromSmiles GetNumAtoms smile func kwargs
          = Val (func m kwargs)) ∧
  (verify smile = Val false →
     apply_to_valid MolFromSmiles GetNumAtoms smile func kwargs = Val 0%Q) ∧
  (∀ e, verify smile = Raise e ↔
        apply_to_valid MolFromSmiles GetNumAtoms smile func kwargs = Raise e).
Proof.
  unfold verify_sequence, apply_to_valid.
  destruct (MolFromSmiles smile) as [[m|]|e]; cbn.
  - split; [|split].
    + intros [= Hv]. rewrite Hv. exists m. split; [done|]. split; [|done].
      unfold valid in Hv. apply andb_true_iff in Hv as [_ Hv]. lia.
    + intros [= Hv]. by rewrite Hv.
    + intros e. split; done.
  - unfold valid. rewrite andb_false_r. split; [done|]. split; [done|].
    intros e. split; done.
  - split; [done|]. split; [done|]. intros e'. split; congruence.
Qed.

(** X20: [verified_and_below] does not call the parser on a string that is too
    long: it returns [False] there whatever the parser would do; it returns
    [True] exactly for the verified strings shorter than [max_len]. *)
Theorem verified_and_below_spec smile max_len :
  (max_len ≤ Z.of_nat (length smile) →
     verified_and_below MolFromSmiles GetNumAtoms smile max_len = Val false) ∧
  (verified_and_below MolFromSmiles GetNumAtoms smile max_len = Val true ↔
     Z.of_nat (length smile) < max_len ∧ verify smile = Val true) ∧
  (∀ e, verified_and_below MolFromSmiles GetNumAtoms smile max_len = Raise e ↔
     Z.of_nat (length smile) < max_len ∧ MolFromSmiles smile = Raise e).
Proof.
  unfold verified_and_below.
  destruct (Z.ltb_spec (Z.of_nat (length smile)) max_len) as [Hlt|Hge].
  - split; [lia|]. split; [tauto|].
    intros e. unfold verify_sequence.
    destruct (MolFromSmiles smile) as [r|e0]; cbn.
    + split; [done|by intros [_ ?]].
    + split; [intros [= ->]; by split|intros [_ [= ->]]; done].
  - split; [done|]. split; [split; [done|lia]|].
    intros e. split; [done|lia].
Qed.

Lemma verify_true_inv smile :
  verify smile = Val true →
  smile ≠ [] ∧ ∃ m, MolFromSmiles smile = Val (Some m) ∧ 1 < GetNumAtoms m.
Proof.
  unfold verify_sequence, valid.
  destruct (MolFromSmiles smile) as [[m|]|e]; cbn; [|by rewrite andb_false_r|done].
  intros [= [Hne Hat]%andb_true_iff]. split.
  - intros ->. by rewrite bool_decide_eq_true_2 in Hne.
  - exists m. split; [done|lia].
Qed.

(** X21: When the parser returns on every string of the list, [filter_smiles]
    returns the verified strings and only them, in their order; none of them
    is empty, and filtering the result again changes nothing. *)
Theorem filter_smiles_spec smiles :
  Forall (λ s, ∃ r, MolFromSmiles s = Val r) smiles →
  ∃ kept, filter_smiles MolFromSmiles GetNumAtoms smiles = Val kept ∧
          kept `sublist_of` smiles ∧
          (∀ s, s ∈ kept ↔ s ∈ smiles ∧ verify s = Val true) ∧
          ([] ∉ kept) ∧
          filter_smiles MolFromSmiles GetNumAtoms kept = Val kept.
Proof.
  induction 1 as [|s smiles [r Hr] _ (kept & Hk & Hsub & Hin & Hnil & Hidem)].
  { exists []. split; [done|]. split; [done|]. split; [|split; [|done]].
    - intros s. split; [by intros ?%elem_of_nil|by intros [?%elem_of_nil _]].
    - by intros ?%elem_of_nil. }
  cbn [filter_smiles]. rewrite Hk.
  destruct (verify s) as [[|]|e] eqn:Hv; cbn.
  - exists (s :: kept). split; [done|]. split; [by constructor|].
    split; [|split].
    + intros s'. rewrite !elem_of_cons, Hin. split.
      * intros [->|[? ?]]; [by split; [left|]|by split; [right|]].
      * intros [[->|?] ?]; [by left|by right].
    + rewrite not_elem_of_cons. split; [|done].
      intros <-. by apply verify_true_inv in Hv as [? _].
    + cbn [filter_smiles]. rewrite Hv, Hidem. done.
  - exists kept. split; [done|]. split; [by constructor|].
    split; [|done].
    intros s'. rewrite elem_of_cons, Hin. split; [by intros [? ?]; split; [right|]|].
    intros [[->|?] ?]; [congruence|done].
  - exfalso. unfold verify_sequence in Hv. by rewrite Hr in Hv.
Qed.

(** X22: [filter_smiles] raises exactly when the parser raises on one of the
    strings: a single failing string loses the whole list. *)
Theorem filter_smiles_raises smiles :
  (∃ e, filter_smiles MolFromSmiles GetNumAtoms smiles = Raise e) ↔
  (∃ s e, s ∈ smiles ∧ MolFromSmiles s = Raise e).
Proof.
  induction smiles as [|s smiles IH]; cbn [filter_smiles].
  - split; [by intros [e ?]|by intros (s & e & ?%elem_of_nil & _)].
  - unfold verify_sequence at 1.
    destruct (MolFromSmiles s) as [r|e] eqn:Hs; cbn.
    + destruct (filter_smiles _ _ smiles) as [kept|e] eqn:Hf; cbn.
      * split; [by intros [e ?]|].
        intros (s' & e & [->|Hin]%elem_of_cons & Hs'); [congruence|].
        destruct (proj2 IH) as [? ?]; [by exists s', e|done].
      * split; [|by exists e]. intros _.
        destruct (proj1 IH) as (s' & e' & Hin & Hs'); [by exists e|].
        exists s', e'. split; [by right|done].
    + split; [|by exists e]. intros _. exists s, e. split; [by left|done].
Qed.

End OracleMore.

Lemma filter_smiles_spec_witness :
  ∃ kept, Oracle.filter_smiles toy_parser toy_atoms
            [str "AB"; str "ZZ"; str ""; str "C"; str "BA"] = Val kept ∧
          kept `sublist_of` [str "AB"; str "ZZ"; str ""; str "C"; str "BA"] ∧
          (∀ s, s ∈ kept ↔
                s ∈ [str "AB"; str "ZZ"; str ""; str "C"; str "BA"] ∧
                Oracle.verify_sequence toy_parser toy_atoms s = Val true) ∧
          ([] ∉ kept) ∧
          Oracle.filter_smiles toy_parser toy_atoms kept = Val kept.
Proof.
  apply (filter_smiles_spec toy_parser toy_atoms).
  apply Forall_forall. intros s _. apply toy_parser_returns.
Defined.

(** ** The reporter and the aggregator *)

Section ReportMore.

Import Report.

Lemma same_but_stdout_refl w : same_but_stdout w w.
Proof. by repeat split. Qed.

Lemma same_but_stdout_trans w1 w2 w3 :
  same_but_stdout w1 w2 → same_but_stdout w2 w3 → same_but_stdout w1 w3.
Proof.
  intros (? & ? & ? & ?) (? & ? & ? & ?).
  repeat split; try congruence. by etrans.
Qed.

Lemma only_prints_bind {A B} (m : io A) (k : A → io B) :
  only_prints m → (∀ a, only_prints (k a)) → only_prints (m ≫= k).
Proof.
  intros Hm Hk w. unfold mbind, io_bind. specialize (Hm w).
  destruct (m w) as [[a|e] w']; simpl in *; [|done].
  eapply same_but_stdout_trans; [exact Hm|apply Hk].
Qed.

Lemma only_prints_ret {A} (a : A) : only_prints (mret a).
Proof. intros w. apply same_but_stdout_refl. Qed.

Lemma only_prints_raise {A} e : only_prints (raise (A := A) e).
Proof. intros w. apply same_but_stdout_refl. Qed.

Lemma only_prints_lift {A} (o : outcome A) : only_prints (lift o).
Proof. intros w. apply same_but_stdout_refl. Qed.

Lemma only_prints_getitem key : only_prints (getitem key).
Proof.
  intros w. unfold getitem. destruct (results w !! key); apply same_but_stdout_refl.
Qed.

Lemma only_prints_print l : only_prints (print l).
Proof. intros w. repeat split. simpl. by eexists. Qed.

Lemma only_prints_count_line label key : only_prints (count_line label key).
Proof.
  unfold count_line.
  apply only_prints_bind; [apply only_prints_getitem|intros v].
  apply only_prints_bind; [apply only_prints_getitem|intros n].
  apply only_prints_bind; [apply only_prints_lift|intros total].
  destruct v; [|apply only_prints_raise..].
  destruct (total =? 0)%Z; [apply only_prints_raise|apply only_prints_print].
Qed.

Lemma only_prints_examples header none samples :
  only_prints (print_examples header none samples).
Proof.
  unfold print_examples.
  apply only_prints_bind; [apply only_prints_print|intros _].
  destruct (10 <? Z.of_nat (length samples))%Z; [|apply only_prints_print].
  apply only_prints_bind; [apply only_prints_print|intros _].
  generalize (take 10 samples). intros l.
  assert (only_prints (mret tt : io unit)) as Hacc by apply only_prints_ret.
  revert Hacc. generalize (mret tt : io unit).
  induction l as [|s l IH]; intros acc Hacc; simpl; [done|].
  apply IH, only_prints_bind; [done|intros _; apply only_prints_print].
Qed.

(** X23: [print_results] only prints: whatever the record and the lists, and
    whether it completes or raises, the record, the directories and the files
    are as before, and the output has only grown. *)
Theorem print_results_only_prints verified_samples unverified_samples w :
  same_but_stdout w (print_results verified_samples unverified_samples w).2.
Proof.
  revert w. change (only_prints (print_results verified_samples unverified_samples)).
  unfold print_results.
  apply only_prints_bind; [apply only_prints_print|intros _].
  apply only_prints_bind; [apply only_prints_getitem|intros n].
  apply only_prints_bind; [apply only_prints_lift|intros total].
  apply only_prints_bind; [apply only_prints_print|intros _].
  do 3 (apply only_prints_bind; [apply only_prints_count_line|intros _]).
  do 2 (apply only_prints_bind; [apply only_prints_examples|intros _]).
  apply only_prints_bind; [apply only_prints_print|intros _].
  apply only_prints_ret.
Qed.

(** The summary that [print_results] writes when it completes: five lines of
    counts, then for each list an empty line and either a header with the
    first ten samples, when the list has more than ten, or the message that
    none was found, when it has ten or fewer (however many that is), and a
    closing line. *)
Theorem print_results_output verified_samples unverified_samples w n u b g :
  results w !! "n_samples" = Some (VInt n) →
  results w !! "uniq_samples" = Some (VInt u) →
  results w !! "bad_samples" = Some (VInt b) →
  results w !! "good_samples" = Some (VInt g) →
  n ≠ 0%Z →
  print_results verified_samples unverified_samples w
  = (Val PyNone,
     World (results w)
       (stdout w ++
        [Text "~~~ Summary Results ~~~";
         Count "Total samples" n;
         CountPct "Unique" u (inject_Z u / inject_Z n * 100)%Q;
         CountPct "Unverified" b (inject_Z b / inject_Z n * 100)%Q;
         CountPct "Verified" g (inject_Z g / inject_Z n * 100)%Q] ++
        (Text "" ::
         if (10 <? Z.of_nat (length verified_samples))%Z
         then Text "Example of good samples:"
              :: map Sample (take 10 verified_samples)
         else [Text "no good samples found :("]) ++
        (Text "" ::
         if (10 <? Z.of_nat (length unverified_samples))%Z
         then Text "Example of bad samples:"
              :: map Sample (take 10 unverified_samples)
         else [Text "no bad samples found :("]) ++
        [Text "~~~~~~~~~~~~~~~~~~~~~~~"])
       (dirs w) (files w)).
Proof.
  intros Hn Hu Hb Hg Hnz. unfold print_results.
  rewrite bind_print. io_get Hn. cbn [format_d].
  rewrite bind_lift_val, bind_print.
  erewrite (bind_count_line _ _ u n) by done || exact Hnz.
  erewrite (bind_count_line _ _ b n) by done || exact Hnz.
  erewrite (bind_count_line _ _ g n) by done || exact Hnz.
  rewrite !bind_print_examples, bind_print. cbn.
  unfold examples_lines. rewrite <- !app_assoc. reflexivity.
Qed.

End ReportMore.

Lemma decode_sample_Val codes ord_dict smile :
  Aggregator.decode_sample codes ord_dict = Val smile ↔
  Codec.decode codes ord_dict = Some smile.
Proof.
  unfold Aggregator.decode_sample.
  destruct (Codec.decode codes ord_dict); split; congruence.
Qed.

Lemma decode_sample_missing codes ord_dict o :
  o ∈ codes → ord_dict !! o = None →
  Aggregator.decode_sample codes ord_dict = Raise KeyError.
Proof.
  intros Ho Hnone. unfold Aggregator.decode_sample, Codec.decode.
  rewrite (mapM_None_2 (λ o, ord_dict !! o)); [done|].
  apply Exists_exists. by exists o.
Qed.

Lemma decode_sample_Raise codes ord_dict e :
  Aggregator.decode_sample codes ord_dict = Raise e → e = KeyError.
Proof.
  unfold Aggregator.decode_sample.
  destruct (Codec.decode codes ord_dict); congruence.
Qed.

Lemma mapM_outcome_only {A B : Type} (f : A → outcome B) (l : list A) e0 :
  (∀ x e, f x = Raise e → e = e0) →
  (∃ x, x ∈ l ∧ f x = Raise e0) →
  mapM f l = Raise e0.
Proof.
  intros Honly Hex.
  destruct (proj2 (mapM_outcome_Raise f l)) as [e He].
  { destruct Hex as (x & ? & ?). by exists x, e0. }
  rewrite He. f_equal. clear Hex.
  revert e He. induction l as [|x l IH]; intros e; cbn [mapM]; [done|].
  destruct (f x) as [y|e1] eqn:Hx; cbn.
  - destruct (mapM f l) as [k|e2]; cbn; [done|]. intros [= <-]. by apply IH.
  - intros [= <-]. by eapply Honly.
Qed.

Lemma size_list_to_set_le (l : list pystr) :
  (size (list_to_set (C := gset pystr) l) ≤ length l)%nat.
Proof.
  induction l as [|x l IH].
  { change (size (∅ : gset pystr) ≤ 0)%nat. by rewrite size_empty. }
  rewrite list_to_set_cons. cbn [length].
  rewrite size_union_alt, size_singleton.
  assert (size ((list_to_set l : gset pystr) ∖ {[x]})
          ≤ size (list_to_set l : gset pystr))%nat
    by (apply subseteq_size; set_solver).
  lia.
Qed.

Section AggregatorMore.

Import Report Aggregator.
Context {Mol : Type}.
Variable MolFromSmiles : pystr → outcome (option Mol).
Variable GetNumAtoms : Mol → Z.
Variable float_repr : option Q → pystr.

Local Abbreviation verify := (Oracle.verify_sequence MolFromSmiles GetNumAtoms).

(** X24: A missing code stops [compute_results] at once: it raises [KeyError]
    before it writes anything, so the record, the output and the files are
    exactly as they were. *)
Theorem compute_results_key_error model_samples train_data ord_dict verbose w :
  (∃ codes o, codes ∈ model_samples ∧ o ∈ codes ∧ ord_dict !! o = None) →
  compute_results MolFromSmiles GetNumAtoms float_repr
      model_samples train_data ord_dict verbose w = (Raise KeyError, w).
Proof.
  intros (codes & o & Hin & Ho & Hnone). unfold compute_results.
  rewrite (mapM_outcome_only (λ s, decode_sample s ord_dict) model_samples KeyError).
  - apply bind_lift_raise.
  - intros x e. apply decode_sample_Raise.
  - exists codes. split; [done|].
    by apply (decode_sample_missing codes ord_dict o).
Qed.

Lemma split_samples_spec samples verified unverified :
  Forall (λ s, ∃ r, MolFromSmiles s = Val r) samples →
  ∃ v u, split_samples MolFromSmiles GetNumAtoms samples verified unverified
         = Val (verified ++ v, unverified ++ u) ∧
         samples ≡ₚ v ++ u ∧
         v `sublist_of` samples ∧ u `sublist_of` samples ∧
         Forall (λ s, verify s = Val true) v ∧
         Forall (λ s, verify s = Val false) u.
Proof.
  intros Hret. revert verified unverified.
  induction Hret as [|s samples [r Hr] _ IH]; intros verified unverified.
  { exists [], []. rewrite !app_nil_r. by repeat split. }
  cbn [split_samples].
  destruct (verify s) as [[|]|e] eqn:Hv; cbn.
  - destruct (IH (verified ++ [s]) unverified) as (v & u & -> & Hp & Hsv & Hsu & Hv' & Hu').
    exists (s :: v), u. rewrite <- (assoc_L (++)). split; [done|].
    split; [simpl; by rewrite Hp|]. split; [by constructor|].
    split; [by constructor|]. split; [by constructor|done].
  - destruct (IH verified (unverified ++ [s])) as (v & u & -> & Hp & Hsv & Hsu & Hv' & Hu').
    exists v, (s :: u). rewrite <- (assoc_L (++)). split; [done|].
    split; [by rewrite <- Permutation_middle, Hp|]. split; [by constructor|].
    split; [by constructor|]. split; [done|by constructor].
  - exfalso. unfold Oracle.verify_sequence in Hv. by rewrite Hr in Hv.
Qed.

Lemma decode_samples model_samples ord_dict samples :
  Forall2 (λ codes smile, Codec.decode codes ord_dict = Some smile)
    model_samples samples →
  mapM (λ s, decode_sample s ord_dict) model_samples = Val samples.
Proof.
  intros Hall. apply mapM_outcome_Val.
  eapply Forall2_impl; [exact Hall|]. intros. by apply decode_sample_Val.
Qed.

(** X25: The record after a quiet run without a batch identifier: with [samples]
    the decoded strings, [n_samples] is their number, [uniq_samples] the
    number of distinct ones (at most [n_samples]), [good_samples] and
    [bad_samples] count the strings that verify and those that do not (each
    string is counted once), and [mean_length] is the mean of the lengths;
    nothing is printed and no file is written. *)
Theorem compute_results_counts model_samples train_data ord_dict samples w :
  Forall2 (λ codes smile, Codec.decode codes ord_dict = Some smile)
    model_samples samples →
  Forall (λ s, ∃ r, MolFromSmiles s = Val r) samples →
  results w !! "Batch" = None →
  ∃ verified unverified,
    compute_results MolFromSmiles GetNumAtoms float_repr
      model_samples train_data ord_dict false w
    = (Val PyNone,
       World
         (<["bad_samples" := VInt (Z.of_nat (length unverified))]>
          (<["good_samples" := VInt (Z.of_nat (length verified))]>
          (<["uniq_samples" :=
               VInt (Z.of_nat (size (list_to_set (C := gset pystr) samples)))]>
          (<["n_samples" := VInt (Z.of_nat (length samples))]>
          (<["mean_length" :=
               VFloat (mean (map (λ s, Z.of_nat (length s)) samples))]>
          (results w))))))
         (stdout w) (dirs w) (files w)) ∧
    samples ≡ₚ verified ++ unverified ∧
    verified `sublist_of` samples ∧ unverified `sublist_of` samples ∧
    Forall (λ s, verify s = Val true) verified ∧
    Forall (λ s, verify s = Val false) unverified ∧
    (size (list_to_set (C := gset pystr) samples) ≤ length samples)%nat ∧
    length samples = length model_samples.
Proof.
  intros Hdec Hret Hbatch. unfold compute_results.
  rewrite (decode_samples _ _ _ Hdec).
  destruct (split_samples_spec samples [] [] Hret)
    as (v & u & Hsplit & Hp & Hsv & Hsu & Hv & Hu).
  exists v, u. simpl in Hsplit.
  rewrite bind_lift_val, !bind_setitem. cbn [results stdout dirs files].
  rewrite Hsplit, bind_lift_val, !bind_setitem, bind_contains.
  cbn [results stdout dirs files].
  rewrite bool_decide_eq_false_2.
  2:{ rewrite !lookup_insert_ne by done. rewrite Hbatch. by intros [? ?]. }
  rewrite !bind_ret.
  split; [reflexivity|]. repeat (split; [done|]).
  split; [apply size_list_to_set_le|]. symmetry. by eapply Forall2_length.
Qed.

Lemma path_join_relative (dir name : pystr) :
  "/"%char ∉ name → path_join dir name = dir ++ str "/" ++ name.
Proof.
  intros Hname. unfold path_join. destruct name as [|x n]; [done|].
  apply not_elem_of_cons in Hname as [Hx _].
  destruct x as [[] [] [] [] [] [] [] []]; done.
Qed.

(** X26: With a batch identifier in the record, a quiet run also dumps the decoded
    strings, one per line, to [epoch_data/<exp_name>_<Batch>.smi] (the name
    holding no ["/"], and [epoch_data] not being a file), where the directory
    is afterwards, and records the name of the dump under ["model_samples"];
    the other files are untouched and nothing is printed. *)
Theorem compute_results_dump model_samples train_data ord_dict samples w
    exp_name batch :
  Forall2 (λ codes smile, Codec.decode codes ord_dict = Some smile)
    model_samples samples →
  Forall (λ s, ∃ r, MolFromSmiles s = Val r) samples →
  results w !! "Batch" = Some batch →
  results w !! "exp_name" = Some exp_name →
  let smi_name := format_value float_repr exp_name ++ str "_"
                  ++ format_value float_repr batch in
  ("/"%char ∉ smi_name) →
  files w !! str "epoch_data" = None →
  ∃ w', compute_results MolFromSmiles GetNumAtoms float_repr
      model_samples train_data ord_dict false w = (Val PyNone, w') ∧
        files w' = <[str "epoch_data/" ++ smi_name ++ str ".smi"
                     := join_lines samples]> (files w) ∧
        results w' !! "model_samples" = Some (VStr smi_name) ∧
        results w' !! "n_samples" = Some (VInt (Z.of_nat (length samples))) ∧
        str "epoch_data" ∈ dirs w' ∧
        dirs w ⊆ dirs w' ∧
        stdout w' = stdout w.
Proof.
  intros Hdec Hret Hbatch Hexp smi_name Hslash Hfile. unfold compute_results.
  rewrite (decode_samples _ _ _ Hdec).
  destruct (split_samples_spec samples [] [] Hret)
    as (v & u & Hsplit & _). simpl in Hsplit.
  rewrite bind_lift_val, !bind_setitem. cbn [results stdout dirs files].
  rewrite Hsplit, bind_lift_val, !bind_setitem, bind_contains.
  cbn [results stdout dirs files].
  rewrite bool_decide_eq_true_2.
  2:{ rewrite !lookup_insert_ne by done. by rewrite Hbatch. }
  rewrite !bind_bind.
  erewrite bind_getitem.
  2:{ cbn [results]. rewrite !lookup_insert_ne by done. exact Hexp. }
  rewrite bind_bind. erewrite bind_getitem.
  2:{ cbn [results]. rewrite !lookup_insert_ne by done. exact Hbatch. }
  cbv zeta. rewrite bind_bind.
  unfold mbind at 1, io_bind at 1, save_smi. cbn [results stdout dirs files].
  rewrite bind_setitem, !bind_ret. cbn [results stdout dirs files].
  eexists. split; [reflexivity|]. cbn [results stdout dirs files].
  fold smi_name.
  rewrite (path_join_relative _ (smi_name ++ str ".smi")).
  2:{ rewrite not_elem_of_app. split; [done|by_evaluation]. }
  split; [done|]. split; [apply lookup_insert_eq|].
  split; [by simplify_map_eq|]. split; [|split; [|done]].
  - destruct (bool_decide (str "epoch_data" ∈ dirs w)) eqn:Hd;
      destruct (bool_decide (is_Some (files w !! str "epoch_data"))) eqn:Hf;
      cbn [orb].
    + by apply bool_decide_eq_true in Hd.
    + by apply bool_decide_eq_true in Hd.
    + apply bool_decide_eq_true in Hf. rewrite Hfile in Hf. by destruct Hf.
    + apply elem_of_union. left. by apply elem_of_singleton.
  - destruct (_ || _); [done|]. apply union_subseteq_r.
Qed.

(** X27: A record with a ["Batch"] but no ["exp_name"] makes [compute_results]
    raise [KeyError] after it has written its five statistics: the call
    fails with the record already updated, and no file is written. *)
Theorem compute_results_missing_exp_name model_samples train_data ord_dict
    samples verbose w batch :
  Forall2 (λ codes smile, Codec.decode codes ord_dict = Some smile)
    model_samples samples →
  Forall (λ s, ∃ r, MolFromSmiles s = Val r) samples →
  results w !! "Batch" = Some batch →
  results w !! "exp_name" = None →
  ∃ w', compute_results MolFromSmiles GetNumAtoms float_repr
      model_samples train_data ord_dict verbose w = (Raise KeyError, w') ∧
        results w' !! "n_samples" = Some (VInt (Z.of_nat (length samples))) ∧
        is_Some (results w' !! "uniq_samples") ∧
        is_Some (results w' !! "good_samples") ∧
        is_Some (results w' !! "bad_samples") ∧
        is_Some (results w' !! "mean_length") ∧
        results w' !! "model_samples" = results w !! "model_samples" ∧
        files w' = files w ∧ dirs w' = dirs w ∧ stdout w' = stdout w.
Proof.
  intros Hdec Hret Hbatch Hexp. unfold compute_results.
  rewrite (decode_samples _ _ _ Hdec).
  destruct (split_samples_spec samples [] [] Hret)
    as (v & u & Hsplit & _). simpl in Hsplit.
  rewrite bind_lift_val, !bind_setitem. cbn [results stdout dirs files].
  rewrite Hsplit, bind_lift_val, !bind_setitem, bind_contains.
  cbn [results stdout dirs files].
  rewrite bool_decide_eq_true_2.
  2:{ rewrite !lookup_insert_ne by done. by rewrite Hbatch. }
  rewrite !bind_bind.
  unfold mbind at 1, io_bind at 1, getitem at 1. cbn [results].
  rewrite !(lookup_insert_ne _ _ "exp_name") by done. rewrite Hexp.
  eexists. split; [reflexivity|]. cbn [results stdout dirs files].
  repeat split; by simplify_map_eq.
Qed.

End AggregatorMore.

Lemma compute_results_key_error_witness :
  Aggregator.compute_results toy_parser toy_atoms toy_repr
    [[1; 2; 4; 4]; [1; 9; 4; 4]] [] vocab_ABZ.2 true (world_of ∅)
  = (Raise KeyError, world_of ∅).
Proof.
  apply (compute_results_key_error toy_parser toy_atoms toy_repr).
  exists [1; 9; 4; 4], 9. split; [by_evaluation|]. split; [by_evaluation|].
  vm_compute. reflexivity.
Defined.

Lemma batch_ABZ_decodes :
  Forall2 (λ codes smile, Codec.decode codes vocab_ABZ.2 = Some smile)
    batch_ABZ [str "AB"; str "AB"; str "ZZ"].
Proof. repeat constructor; vm_compute; reflexivity. Qed.

Lemma toy_parser_returns_all (samples : list pystr) :
  Forall (λ s, ∃ r, toy_parser s = Val r) samples.
Proof. apply Forall_forall. intros s _. apply toy_parser_returns. Qed.

Lemma compute_results_counts_witness :
  ∃ verified unverified,
    Aggregator.compute_results toy_parser toy_atoms toy_repr
      batch_ABZ [] vocab_ABZ.2 false (world_of ∅)
    = (Val PyNone,
       World
         (<["bad_samples" := VInt (Z.of_nat (length unverified))]>
          (<["good_samples" := VInt (Z.of_nat (length verified))]>
          (<["uniq_samples" :=
               VInt (Z.of_nat (size (list_to_set (C := gset pystr)
                                       [str "AB"; str "AB"; str "ZZ"])))]>
          (<["n_samples" :=
               VInt (Z.of_nat (length [str "AB"; str "AB"; str "ZZ"]))]>
          (<["mean_length" :=
               VFloat (Aggregator.mean
                         (map (λ s, Z.of_nat (length s))
                            [str "AB"; str "AB"; str "ZZ"]))]>
          (results (world_of ∅)))))))
         (stdout (world_of ∅)) (dirs (world_of ∅)) (files (world_of ∅))) ∧
    [str "AB"; str "AB"; str "ZZ"] ≡ₚ verified ++ unverified ∧
    verified `sublist_of` [str "AB"; str "AB"; str "ZZ"] ∧
    unverified `sublist_of` [str "AB"; str "AB"; str "ZZ"] ∧
    Forall (λ s, Oracle.verify_sequence toy_parser toy_atoms s = Val true) verified ∧
    Forall (λ s, Oracle.verify_sequence toy_parser toy_atoms s = Val false) unverified ∧
    (size (list_to_set (C := gset pystr) [str "AB"; str "AB"; str "ZZ"])
     ≤ length [str "AB"; str "AB"; str "ZZ"])%nat ∧
    length [str "AB"; str "AB"; str "ZZ"] = length batch_ABZ.
Proof.
  apply (compute_results_counts toy_parser toy_atoms toy_repr batch_ABZ []
           vocab_ABZ.2 [str "AB"; str "AB"; str "ZZ"] (world_of ∅)).
  - exact batch_ABZ_decodes.
  - apply toy_parser_returns_all.
  - reflexivity.
Defined.

Lemma compute_results_dump_witness :
  ∃ w', Aggregator.compute_results toy_parser toy_atoms toy_repr
          batch_ABZ [] vocab_ABZ.2 false (world_of record_batch_7)
        = (Val PyNone, w') ∧
        files w' = <[str "epoch_data/run_7.smi" :=
                       Report.join_lines [str "AB"; str "AB"; str "ZZ"]]> ∅ ∧
        results w' !! "model_samples" = Some (VStr (str "run_7")) ∧
        results w' !! "n_samples" = Some (VInt 3) ∧
        str "epoch_data" ∈ dirs w' ∧
        dirs (world_of record_batch_7) ⊆ dirs w' ∧
        stdout w' = [].
Proof.
  apply (compute_results_dump toy_parser toy_atoms toy_repr batch_ABZ []
           vocab_ABZ.2 [str "AB"; str "AB"; str "ZZ"]
           (world_of record_batch_7) (VStr (str "run")) (VInt 7)).
  - exact batch_ABZ_decodes.
  - apply toy_parser_returns_all.
  - vm_compute. reflexivity.
  - vm_compute. reflexivity.
  - by_evaluation.
  - reflexivity.
Defined.

Lemma compute_results_missing_exp_name_witness :
  ∃ w', Aggregator.compute_results toy_parser toy_atoms toy_repr
          batch_ABZ [] vocab_ABZ.2 true (world_of (<["Batch" := VInt 7]> ∅))
        = (Raise KeyError, w') ∧
        results w' !! "n_samples" = Some (VInt 3) ∧
        is_Some (results w' !! "uniq_samples") ∧
        is_Some (results w' !! "good_samples") ∧
        is_Some (results w' !! "bad_samples") ∧
        is_Some (results w' !! "mean_length") ∧
        results w' !! "model_samples"
        = results (world_of (<["Batch" := VInt 7]> ∅)) !! "model_samples" ∧
        files w' = ∅ ∧ dirs w' = ∅ ∧ stdout w' = [].
Proof.
  apply (compute_results_missing_exp_name toy_parser toy_atoms toy_repr
           batch_ABZ [] vocab_ABZ.2 [str "AB"; str "AB"; str "ZZ"] true
           (world_of (<["Batch" := VInt 7]> ∅)) (VInt 7)).
  - exact batch_ABZ_decodes.
  - apply toy_parser_returns_all.
  - vm_compute. reflexivity.
  - vm_compute. reflexivity.
Defined.

Lemma print_results_output_witness :
  (Report.print_results [str "AB"; str "AB"] [str "ZZ"]
     (world_of (<["bad_samples" := VInt 1]> (<["good_samples" := VInt 2]>
                (<["uniq_samples" := VInt 2]> (<["n_samples" := VInt 3]> ∅)))))).1
  = Val PyNone.
Proof.
  rewrite (print_results_output [str "AB"; str "AB"] [str "ZZ"] _ 3 2 1 2);
    [reflexivity|vm_compute; reflexivity..|discriminate].
Defined.

(** ** [save_smi] and [load_train_data] *)

Section SaveLoad.

Import Report DataIO.

(** The line feed that ['\n'.join] puts between the strings. *)
Local Abbreviation newline := ("010"%char : ascii).

Lemma app_cons_first_occurrence (s1 s2 t1 t2 : pystr) (c : ascii) :
  c ∉ s1 → c ∉ s2 → s1 ++ c :: t1 = s2 ++ c :: t2 → s1 = s2 ∧ t1 = t2.
Proof.
  revert s2. induction s1 as [|x s1 IH]; intros [|y s2] H1 H2 Heq; simpl in *.
  - by injection Heq as ->.
  - exfalso. injection Heq as <- _. apply H2. by left.
  - exfalso. injection Heq as -> _. apply H1. by left.
  - injection Heq as -> Heq.
    apply not_elem_of_cons in H1 as [_ H1]. apply not_elem_of_cons in H2 as [_ H2].
    destruct (IH s2 H1 H2 Heq) as [-> ->]. done.
Qed.

Lemma join_lines_cons s rest :
  rest ≠ [] → join_lines (s :: rest) = s ++ newline :: join_lines rest.
Proof. by destruct rest. Qed.

(** X28: The dump loses nothing but the difference between no string and one
    empty string: two non-empty lists of strings without line feeds that
    give the same file content are the same list, while [[]] and [['']] both
    give the empty file. *)
Theorem join_lines_injective (smiles1 smiles2 : list pystr) :
  (smiles1 ≠ [] → smiles2 ≠ [] →
   Forall (λ s, newline ∉ s) smiles1 → Forall (λ s, newline ∉ s) smiles2 →
   join_lines smiles1 = join_lines smiles2 → smiles1 = smiles2) ∧
  join_lines [] = join_lines [[]].
Proof.
  split; [|done].
  revert smiles2. induction smiles1 as [|s1 rest1 IH]; [done|].
  intros [|s2 rest2] _ Hne2 H1 H2 Heq; [done|].
  apply Forall_cons in H1 as [Hs1 H1]. apply Forall_cons in H2 as [Hs2 H2].
  destruct rest1 as [|r1 rest1], rest2 as [|r2 rest2].
  - simpl in Heq. by subst.
  - exfalso. rewrite (join_lines_cons s2) in Heq by done. simpl in Heq.
    apply Hs1. rewrite Heq. apply elem_of_app. right. by left.
  - exfalso. rewrite (join_lines_cons s1) in Heq by done. simpl in Heq.
    apply Hs2. rewrite <- Heq. apply elem_of_app. right. by left.
  - rewrite !join_lines_cons in Heq by done.
    apply app_cons_first_occurrence in Heq as [-> Heq]; [|done..].
    f_equal. by apply IH.
Qed.

Lemma path_join_cases (dir name : pystr) :
  path_join dir name
  = match name with
    | x :: _ => if decide (x = "/"%char) then name else dir ++ str "/" ++ name
    | [] => dir ++ str "/" ++ name
    end.
Proof.
  destruct name as [|x n]; [done|].
  destruct (decide (x = "/"%char)) as [->|Hx]; [done|].
  unfold path_join. destruct x as [[] [] [] [] [] [] [] []]; done.
Qed.

Lemma smi_path (name : pystr) :
  path_join (str "epoch_data") (name ++ str ".smi")
  = match name with
    | x :: _ => if decide (x = "/"%char) then name ++ str ".smi"
                else str "epoch_data/" ++ name ++ str ".smi"
    | [] => str "epoch_data/" ++ name ++ str ".smi"
    end.
Proof.
  rewrite path_join_cases. destruct name as [|x n]; [done|]. simpl.
  by destruct (decide (x = "/"%char)).
Qed.

Lemma smi_path_injective (name1 name2 : pystr) :
  path_join (str "epoch_data") (name1 ++ str ".smi")
  = path_join (str "epoch_data") (name2 ++ str ".smi") →
  name1 = name2.
Proof.
  rewrite !smi_path.
  assert (∀ n1 n2 : pystr,
            str "epoch_data/" ++ n1 ++ str ".smi"
            = str "epoch_data/" ++ n2 ++ str ".smi" → n1 = n2) as Hrel.
  { intros n1 n2 Heq%app_inv_head. by apply app_inv_tail in Heq. }
  destruct name1 as [|x1 n1], name2 as [|x2 n2].
  - done.
  - destruct (decide (x2 = "/"%char)) as [->|]; [discriminate|apply Hrel].
  - destruct (decide (x1 = "/"%char)) as [->|]; [discriminate|apply Hrel].
  - destruct (decide (x1 = "/"%char)) as [->|], (decide (x2 = "/"%char)) as [->|].
    + intros Heq. by apply app_inv_tail in Heq.
    + discriminate.
    + discriminate.
    + apply Hrel.
Qed.

Lemma smi_path_relative (name : pystr) :
  "/"%char ∉ name →
  path_join (str "epoch_data") (name ++ str ".smi")
  = str "epoch_data/" ++ name ++ str ".smi".
Proof.
  intros Hname. rewrite smi_path. destruct name as [|x n]; [done|].
  apply not_elem_of_cons in Hname as [Hx _]. by rewrite decide_False.
Qed.

(** X29: Dumps under different names never overwrite each other: after two calls
    of [save_smi] (names without ["/"], [epoch_data] not being a file) both
    files of [epoch_data] hold their own lists, the directory exists, and
    every other file, the record and the output are untouched. *)
Theorem save_smi_distinct name1 name2 smiles1 smiles2 w :
  name1 ≠ name2 →
  ("/"%char ∉ name1) → ("/"%char ∉ name2) →
  files w !! str "epoch_data" = None →
  let path1 := str "epoch_data/" ++ name1 ++ str ".smi" in
  let path2 := str "epoch_data/" ++ name2 ++ str ".smi" in
  let w2 := (save_smi name2 smiles2 (save_smi name1 smiles1 w).2).2 in
  files w2 !! path1 = Some (join_lines smiles1) ∧
  files w2 !! path2 = Some (join_lines smiles2) ∧
  (∀ p, p ≠ path1 → p ≠ path2 → files w2 !! p = files w !! p) ∧
  str "epoch_data" ∈ dirs w2 ∧
  results w2 = results w ∧ stdout w2 = stdout w.
Proof.
  intros Hne Hs1 Hs2 Hfile path1 path2 w2.
  assert (path1 ≠ path2) as Hp.
  { subst path1 path2. rewrite <- !smi_path_relative by done.
    intros ?%smi_path_injective. done. }
  subst w2. unfold save_smi. cbn [results stdout dirs files snd].
  rewrite !smi_path_relative by done. fold path1 path2.
  split; [|split; [|split; [|split; [|done]]]].
  - rewrite lookup_insert_ne by done. apply lookup_insert_eq.
  - apply lookup_insert_eq.
  - intros p H1 H2. by rewrite !lookup_insert_ne.
  - assert (str "epoch_data" ∈
              (if bool_decide (str "epoch_data" ∈ dirs w)
                  || bool_decide (is_Some (files w !! str "epoch_data"))
               then dirs w else {[str "epoch_data"]} ∪ dirs w)) as Hd1.
    { destruct (bool_decide (str "epoch_data" ∈ dirs w)) eqn:Hd;
        destruct (bool_decide (is_Some (files w !! str "epoch_data"))) eqn:Hf;
        cbn [orb].
      - by apply bool_decide_eq_true in Hd.
      - by apply bool_decide_eq_true in Hd.
      - apply bool_decide_eq_true in Hf. rewrite Hfile in Hf. by destruct Hf.
      - apply elem_of_union. left. by apply elem_of_singleton. }
    revert Hd1. generalize (if bool_decide (str "epoch_data" ∈ dirs w)
                               || bool_decide (is_Some (files w !! str "epoch_data"))
                            then dirs w else {[str "epoch_data"]} ∪ dirs w).
    intros d1 Hd1. destruct (_ || _); [done|]. apply elem_of_union. by right.
Qed.

Lemma split_no_sep (s : pystr) (sep : ascii) : sep ∉ s → split s sep = [s].
Proof.
  induction s as [|x s IH]; [done|].
  intros [Hx Hs]%not_elem_of_cons. simpl.
  rewrite decide_False by done. by rewrite (IH Hs).
Qed.

Lemma split_nonempty (s : pystr) (sep : ascii) : split s sep ≠ [].
Proof.
  destruct s as [|x s]; simpl; [done|].
  destruct (decide (x = sep)); [done|]. by destruct (split s sep).
Qed.

Lemma split_cons_sep (t : pystr) (sep : ascii) :
  split (sep :: t) sep = [] :: split t sep.
Proof. simpl. by rewrite decide_True. Qed.

Lemma split_cons_other (x : ascii) (t : pystr) (sep : ascii) :
  x ≠ sep →
  split (x :: t) sep
  = match split t sep with
    | [] => [[x]]
    | seg :: segs => (x :: seg) :: segs
    end.
Proof. intros Hx. simpl. by rewrite decide_False. Qed.

Lemma split_app (a b : pystr) (sep : ascii) :
  split (a ++ sep :: b) sep = split a sep ++ split b sep.
Proof.
  induction a as [|x a IH].
  - change ([] ++ sep :: b) with (sep :: b). by rewrite split_cons_sep.
  - change ((x :: a) ++ sep :: b) with (x :: (a ++ sep :: b)).
    destruct (decide (x = sep)) as [->|Hx].
    + by rewrite !split_cons_sep, IH.
    + rewrite !split_cons_other by done. rewrite IH.
      destruct (split a sep) eqn:E; [by apply split_nonempty in E|done].
Qed.

Lemma last_split_app (a b : pystr) (sep : ascii) :
  last (split (a ++ sep :: b) sep) = last (split b sep).
Proof.
  rewrite split_app, last_app.
  destruct (last (split b sep)) eqn:E; [done|].
  apply last_None in E. by apply split_nonempty in E.
Qed.

Lemma extension_suffix (name ext : pystr) :
  "."%char ∉ ext → extension (name ++ "."%char :: ext) = ext.
Proof.
  intros Hext. unfold extension. by rewrite last_split_app, split_no_sep.
Qed.

Lemma extension_no_dot (filename : pystr) :
  "."%char ∉ filename → extension filename = filename.
Proof. intros H. unfold extension. by rewrite split_no_sep. Qed.

Variable read_smiles_csv : pystr → outcome (list pystr).
Variable read_smi : pystr → outcome (list pystr).

(** X30: [load_train_data] looks at what follows the last dot only: a name that
    ends in [.csv] goes to the csv reader and one that ends in [.smi] to the
    smi reader, whatever comes before; any other extension raises
    [ValueError] without a reader being called; a name without a dot is its
    own extension, so a file called [smi] is read as one. *)
Theorem load_train_data_dispatch :
  (∀ name, load_train_data read_smiles_csv read_smi (name ++ str ".csv")
           = read_smiles_csv (name ++ str ".csv")) ∧
  (∀ name, load_train_data read_smiles_csv read_smi (name ++ str ".smi")
           = read_smi (name ++ str ".smi")) ∧
  (∀ name ext, "."%char ∉ ext → ext ≠ str "csv" → ext ≠ str "smi" →
               load_train_data read_smiles_csv read_smi (name ++ "."%char :: ext)
               = Raise ValueError) ∧
  (∀ filename, "."%char ∉ filename →
               load_train_data read_smiles_csv read_smi filename
               = if decide (filename = str "csv") then read_smiles_csv filename
                 else if decide (filename = str "smi") then read_smi filename
                 else Raise ValueError).
Proof.
  unfold load_train_data. repeat split.
  - intros name. change (str ".csv") with ("."%char :: str "csv").
    rewrite extension_suffix by by_evaluation. by rewrite decide_True.
  - intros name. change (str ".smi") with ("."%char :: str "smi").
    rewrite extension_suffix by by_evaluation.
    rewrite decide_False by discriminate. by rewrite decide_True.
  - intros name ext Hdot Hcsv Hsmi. rewrite extension_suffix by done.
    by rewrite !decide_False.
  - intros filename Hdot. by rewrite extension_no_dot.
Qed.

End SaveLoad.

Lemma save_smi_distinct_witness :
  let w2 := (Report.save_smi (str "b") [str "CC"]
               (Report.save_smi (str "a") [str "AB"; str "BA"] (world_of ∅)).2).2 in
  files w2 !! str "epoch_data/a.smi" = Some (Report.join_lines [str "AB"; str "BA"]) ∧
  files w2 !! str "epoch_data/b.smi" = Some (Report.join_lines [str "CC"]).
Proof.
  pose proof (save_smi_distinct (str "a") (str "b") [str "AB"; str "BA"]
                [str "CC"] (world_of ∅)) as H.
  cbv zeta in *.
  destruct H as (H1 & H2 & _);
    [discriminate|by_evaluation|by_evaluation|reflexivity|].
  by split.
Defined.
